(** * Qt-like signals over standard C++11 ([signals.hpp])

    A [signal<F, etype>] keeps a vector of callbacks ([funcs]);
    [connect] pushes a callback at the back and [emit] walks the vector from
    [begin()] to [end()], calling each callback directly ([synch]) or
    handing it to [std::async] and keeping the returned future in a local
    vector ([asynch]).  The futures go out of scope when [emit] is left;
    the destructor of a future whose task [std::async] started on a thread
    blocks until the task has finished, the destructor of a future whose
    task was deferred returns at once and the task is never run.

    The development has three layers:
    - the data: callbacks as finite trees of atomic actions on the
      environment they captured, signals as the vector of callbacks;
    - one activation of [emit] as a machine that a schedule drives, one
      thread step at a time (the caller's thread, or the thread of one of
      the tasks started by [std::async]);
    - the sequential reading of the loop ([in_order]), which the machine
      is shown to compute under the [synch] policy.

    Conventions of the model, all taken from the C++ library semantics:
    - [std::async] is called without a launch policy, so that each call is
      free to start its task on a thread of its own or to defer it; the
      choice is part of the schedule;
    - [emit] never calls [get()] or [wait()] on a future: a deferred task
      is never run, and the destructor of a future never rethrows what its
      task stored;
    - a callback acts on the environment its captures refer to, never on the
      signal that holds it (a [push_back] into [funcs] during the iteration
      of [emit] would invalidate the iterator);
    - callbacks terminate: the non-returning callback is outside the model. *)

From stdpp Require Import base list strings pretty.
From Stdlib Require Import ZArith Lia.

(** [enum emit_type{synch,asynch}] *)
Inductive emit_type := synch | asynch.

Section signals.
Context {Args Env Exn : Type}.

(** ** Callbacks *)

(** What an invocation of a [std::function<void(Args...)>] still has to do:
    return, throw, or perform one atomic action on the environment and go
    on.  The continuation may depend on the environment the action found. *)
Inductive code :=
| Return
| Throw (x : Exn)
| Step (act : Env → Env) (rest : Env → code).

Definition std_function := Args → code.

(** How a call ends. *)
Inductive outcome :=
| Returned (e : Env)
| Thrown (x : Exn) (e : Env).

Definition env_of (o : outcome) : Env :=
  match o with Returned e | Thrown _ e => e end.

(** A call carried out on one thread with nothing else running. *)
Fixpoint run (c : code) (e : Env) : outcome :=
  match c with
  | Return => Returned e
  | Throw x => Thrown x e
  | Step act rest => run (rest e) (act e)
  end.

(** ** The signal *)

(** [template<typename F, emit_type etype> class signal]: the policy is a
    template argument, the only member is the vector of callbacks. *)
Record signal (etype : emit_type) := Signal { funcs : list std_function }.
Global Arguments Signal {etype} _.
Global Arguments funcs {etype} _.

(** [void connect(std::function<F> fn) { funcs.push_back(fn); }] *)
Definition connect {etype} (fn : std_function) (s : signal etype) : signal etype :=
  Signal (funcs s ++ [fn]).

(** Several [connect] calls in a row. *)
Definition connect_all {etype} (fns : list std_function) (s : signal etype)
  : signal etype :=
  foldl (λ s' fn, connect fn s') s fns.


(** ** One activation of [emit] *)

(** What can be observed of the callbacks: entry [i] of [funcs] starts to
    run with a payload; entry [i] has finished, normally or by throwing. *)
Inductive event :=
| Invoke (i : nat) (a : Args)
| Complete (i : nat) (r : option Exn).

(** The shared state behind a [std::future<void>] made by [std::async]:
    the task has been handed to a thread of its own, is running there, or
    has stored its result (nothing, or the exception it ended with); or
    the task was deferred, to be run by the first [get()] or [wait()]. *)
Inductive shared_state :=
| launched (c : code)
| running (c : code)
| ready (r : option Exn)
| deferred (c : code).

(** What a call of [std::async] without a launch policy may do with its
    task: the default policy [launch::async | launch::deferred] leaves the
    choice to the implementation, call by call. *)
Inductive launch := on_thread | on_demand.

Definition std_async (how : launch) (c : code) : shared_state :=
  match how with
  | on_thread => launched c
  | on_demand => deferred c
  end.

(** Where the caller's thread is: at the loop test with the iterator [fn]
    (an offset from [funcs.begin()]), inside [sig(args...)], or leaving
    the function (normally, or with an exception in flight), which is where
    [futures] is destroyed. *)
Inductive control :=
| looping (fn : nat)
| calling (fn : nat) (c : code)
| leaving (r : option Exn).

Record activation (etype : emit_type) := Activation {
  this : signal etype;
  args : Args;
  pc : control;
  futures : list shared_state;
  env : Env;
  log : list event
}.
Global Arguments Activation {etype} _ _ _ _ _ _.
Global Arguments this {etype} _.
Global Arguments args {etype} _.
Global Arguments pc {etype} _.
Global Arguments futures {etype} _.
Global Arguments env {etype} _.
Global Arguments log {etype} _.

(** Who moves: the caller's thread (with [std::async] starting a thread,
    if that is the step), the caller's thread at a call of [std::async]
    that defers its task, or the thread behind [futures[j]]. *)
Inductive thread := caller | caller_deferring | worker (j : nat).

Definition schedule := list thread.

(** The state on entry: [std::vector< std::future<void> > futures;]
    and [fn = funcs.begin()]. *)
Definition enter {etype} (s : signal etype) (a : Args) (e : Env)
  : activation etype :=
  Activation s a (looping 0) [] e [].

(** One step of the thread that called [emit]; [how] is what
    [std::async] does with the task, when the step is a call of it. *)
Definition caller_step {etype} (how : launch) (m : activation etype)
  : option (activation etype) :=
  match pc m with
  | looping fn =>
      match (funcs (this m) !! fn : option std_function) with
      | None =>
          Some (Activation (this m) (args m) (leaving None)
                  (futures m) (env m) (log m))
      | Some f =>
          match etype with
          | asynch =>
              Some (Activation (this m) (args m) (looping (S fn))
                      (futures m ++ [std_async how (f (args m))]) (env m)
                      (log m))
          | synch =>
              Some (Activation (this m) (args m) (calling fn (f (args m)))
                      (futures m) (env m) (log m ++ [Invoke fn (args m)]))
          end
      end
  | calling fn (Step act rest) =>
      Some (Activation (this m) (args m) (calling fn (rest (env m)))
              (futures m) (act (env m)) (log m))
  | calling fn Return =>
      Some (Activation (this m) (args m) (looping (S fn))
              (futures m) (env m) (log m ++ [Complete fn None]))
  | calling fn (Throw x) =>
      Some (Activation (this m) (args m) (leaving (Some x))
              (futures m) (env m) (log m ++ [Complete fn (Some x)]))
  | leaving _ => None
  end.

(** The caller is about to call [std::async]. *)
Definition dispatching {etype} (m : activation etype) : bool :=
  match pc m with
  | looping fn =>
      match etype with
      | asynch => bool_decide (fn < length (funcs (this m)))
      | synch => false
      end
  | _ => false
  end.

(** One step of the thread behind [futures[j]].  No thread is behind a
    deferred task: only [get()] or [wait()] would run it, on the thread
    that calls them, and [emit] calls neither. *)
Definition worker_step {etype} (j : nat) (m : activation etype)
  : option (activation etype) :=
  match futures m !! j with
  | Some (launched c) =>
      Some (Activation (this m) (args m) (pc m)
              (<[j := running c]> (futures m)) (env m)
              (log m ++ [Invoke j (args m)]))
  | Some (running (Step act rest)) =>
      Some (Activation (this m) (args m) (pc m)
              (<[j := running (rest (env m))]> (futures m)) (act (env m))
              (log m))
  | Some (running Return) =>
      Some (Activation (this m) (args m) (pc m)
              (<[j := ready None]> (futures m)) (env m)
              (log m ++ [Complete j None]))
  | Some (running (Throw x)) =>
      Some (Activation (this m) (args m) (pc m)
              (<[j := ready (Some x)]> (futures m)) (env m)
              (log m ++ [Complete j (Some x)]))
  | Some (ready _) | Some (deferred _) | None => None
  end.

Definition step {etype} (t : thread) (m : activation etype)
  : option (activation etype) :=
  match t with
  | caller => caller_step on_thread m
  | caller_deferring =>
      if dispatching m then caller_step on_demand m else None
  | worker j => worker_step j m
  end.

(** A schedule is followed step by step; it is refused as soon as it
    names a thread that cannot move. *)
Fixpoint exec {etype} (sched : schedule) (m : activation etype)
  : option (activation etype) :=
  match sched with
  | [] => Some m
  | t :: sched' =>
      match step t m with
      | Some m' => exec sched' m'
      | None => None
      end
  end.

Definition is_ready (st : shared_state) : bool :=
  match st with ready _ => true | _ => false end.

(** [~future()]: the destructor blocks while a task started by
    [std::async] on a thread has not stored its result; it returns at once
    when the result is there, and when the task was deferred, which is
    then dropped without having run. *)
Definition lets_go (st : shared_state) : bool :=
  match st with
  | ready _ | deferred _ => true
  | launched _ | running _ => false
  end.

(** [emit] is left once the caller is at the end of the function and
    the destructor of every future has been let through. *)
Definition exited {etype} (m : activation etype) : bool :=
  match pc m with
  | leaving _ => forallb lets_go (futures m)
  | _ => false
  end.

(** What the emitter gets: a normal return, or the exception in flight. *)
Definition result {etype} (m : activation etype) : option outcome :=
  match pc m with
  | leaving None => Some (Returned (env m))
  | leaving (Some x) => Some (Thrown x (env m))
  | _ => None
  end.

(** The emitter has its call back by a normal return, and [std::async]
    has started every task it was given (none was deferred), so that every
    task has stored its result. *)
Definition all_started {etype} (m : activation etype) : Prop :=
  (∃ e, result m = Some (Returned e)) ∧
  forallb is_ready (futures m) = true.

(** [emit(args...)] under a schedule: the activation in which [emit]
    is left, when the schedule is one of a whole call. *)
Definition emit {etype} (sched : schedule) (s : signal etype) (a : Args)
    (e : Env) : option (activation etype) :=
  match exec sched (enter s a e) with
  | Some m => if exited m then Some m else None
  | None => None
  end.

(** ** Reading a log *)

(** The payloads entry [i] was invoked with, and the ways its invocations
    ended, in the order of the log. *)
Fixpoint invocations (i : nat) (l : list event) : list Args :=
  match l with
  | [] => []
  | Invoke j a :: l' =>
      if decide (j = i) then a :: invocations i l' else invocations i l'
  | Complete _ _ :: l' => invocations i l'
  end.

Fixpoint completions (i : nat) (l : list event) : list (option Exn) :=
  match l with
  | [] => []
  | Invoke _ _ :: l' => completions i l'
  | Complete j r :: l' =>
      if decide (j = i) then r :: completions i l' else completions i l'
  end.

(** The log of [n] callbacks from position [fn] on, each called with [a]
    and returning before the next is called. *)
Definition one_by_one (a : Args) (fn n : nat) : list event :=
  flat_map (λ i, [Invoke i a; Complete i None]) (seq fn n).

(** ** The sequential reading of the loop *)

(** [for(auto fn=funcs.begin(); fn!=funcs.end(); fn++) sig(args...);]
    read as a function: the callbacks from position [fn] on are called
    one after the other on the environment the previous one left; a
    throwing callback ends the loop.  The second component is the log the
    calls leave behind. *)
Fixpoint in_order (fn : nat) (fs : list std_function) (a : Args) (e : Env)
    (l : list event) : outcome * list event :=
  match fs with
  | [] => (Returned e, l)
  | f :: fs' =>
      match run (f a) e with
      | Returned e' =>
          in_order (S fn) fs' a e' (l ++ [Invoke fn a; Complete fn None])
      | Thrown x e' =>
          (Thrown x e', l ++ [Invoke fn a; Complete fn (Some x)])
      end
  end.

(** The number of steps the caller's thread spends in one call of a
    callback, and in the rest of the loop, under the [synch] policy. *)
Fixpoint call_steps (c : code) (e : Env) : nat :=
  match c with
  | Return | Throw _ => 1
  | Step act rest => S (call_steps (rest e) (act e))
  end.

Fixpoint loop_steps (fs : list std_function) (a : Args) (e : Env) : nat :=
  match fs with
  | [] => 1
  | f :: fs' =>
      S (call_steps (f a) e +
         match run (f a) e with
         | Returned e' => loop_steps fs' a e'
         | Thrown _ _ => 0
         end)
  end.

(** The one schedule of a [synch] emission. *)
Definition synch_schedule (s : signal synch) (a : Args) (e : Env) : schedule :=
  replicate (loop_steps (funcs s) a e) caller.

(** What a [synch] activation is going to end with, read off any of its
    states. *)
Definition synch_final (m : activation synch) : outcome * list event :=
  match pc m with
  | looping fn =>
      in_order fn (drop fn (funcs (this m))) (args m) (env m) (log m)
  | calling fn c =>
      match run c (env m) with
      | Returned e' =>
          in_order (S fn) (drop (S fn) (funcs (this m))) (args m) e'
            (log m ++ [Complete fn None])
      | Thrown x e' => (Thrown x e', log m ++ [Complete fn (Some x)])
      end
  | leaving None => (Returned (env m), log m)
  | leaving (Some x) => (Thrown x (env m), log m)
  end.

(** ** One way to let an [asynch] emission finish *)

(** The thread behind [futures[j]] taken to the end of its task, with
    nothing else running meanwhile. *)
Fixpoint task_schedule (j : nat) (c : code) (e : Env) : schedule :=
  match c with
  | Return | Throw _ => [worker j]
  | Step act rest => worker j :: task_schedule j (rest e) (act e)
  end.

Definition future_schedule (j : nat) (st : shared_state) (e : Env) : schedule :=
  match st with
  | launched c => worker j :: task_schedule j c e
  | running c => task_schedule j c e
  | ready _ | deferred _ => []
  end.

Definition future_env (st : shared_state) (e : Env) : Env :=
  match st with
  | launched c | running c => env_of (run c e)
  | ready _ | deferred _ => e
  end.

(** What [future_schedule] makes of a future: a task that has a thread
    has stored its result, a deferred task is as it was. *)
Definition finished (st st' : shared_state) : Prop :=
  match st with
  | deferred _ => st' = st
  | _ => is_ready st' = true
  end.

(** The futures from [futures[j]] on, waited for one after the other. *)
Fixpoint join_schedule (j : nat) (fs : list shared_state) (e : Env) : schedule :=
  match fs with
  | [] => []
  | st :: fs' =>
      future_schedule j st e ++ join_schedule (S j) fs' (future_env st e)
  end.

(** From a state of an [asynch] emission: the caller hands the remaining
    callbacks to [std::async], which starts a thread for each, and fails
    the loop test, then the tasks that have a thread are run to their ends
    in the order of their futures. *)
Definition asynch_finish (m : activation asynch) : schedule :=
  match pc m with
  | looping fn =>
      let todo := drop fn (funcs (this m)) in
      replicate (length todo) caller ++
      caller ::
      join_schedule 0
        (futures m ++ map (λ f : std_function, launched (f (args m))) todo)
        (env m)
  | _ => join_schedule 0 (futures m) (env m)
  end.

Definition asynch_schedule (s : signal asynch) (a : Args) (e : Env) : schedule :=
  asynch_finish (enter s a e).

(** The schedule in which the callbacks run in turn, under either
    policy. *)
Definition in_turn_schedule {etype}
  : signal etype → Args → Env → schedule :=
  match etype with
  | synch => synch_schedule
  | asynch => asynch_schedule
  end.

(** What calling the callbacks in turn, each to its end, makes of the
    environment (a callback that throws leaves what it had done). *)
Definition each_in_turn (fs : list std_function) (a : Args) (e : Env) : Env :=
  foldl (λ e' f, env_of (run (f a) e')) e fs.

(** ** Programs over one signal *)

(** The calls an owner makes on its signal, one after the other.  An
    exception that leaves [emit] is taken to be caught by the emitter, who
    goes on with the environment as the exception left it. *)
Inductive call :=
| Connect (fn : std_function)
| Emit (sched : schedule) (a : Args).

Fixpoint perform {etype} (cs : list call) (s : signal etype) (e : Env)
  : option (signal etype * Env * list (activation etype)) :=
  match cs with
  | [] => Some (s, e, [])
  | Connect fn :: cs' => perform cs' (connect fn s) e
  | Emit sched a :: cs' =>
      match emit sched s a e with
      | Some m =>
          match perform cs' (this m) (env m) with
          | Some (s', e', ms) => Some (s', e', m :: ms)
          | None => None
          end
      | None => None
      end
  end.

(** The callbacks a program connects, in the order of its [connect] calls. *)
Fixpoint connected (cs : list call) : list std_function :=
  match cs with
  | [] => []
  | Connect fn :: cs' => fn :: connected cs'
  | Emit _ _ :: cs' => connected cs'
  end.

(** The payloads of the [emit] calls of a program, in order. *)
Fixpoint emitted (cs : list call) : list Args :=
  match cs with
  | [] => []
  | Connect _ :: cs' => emitted cs'
  | Emit _ a :: cs' => a :: emitted cs'
  end.

(** One [emit] call for each of the payloads [pl], each call running the
    callbacks in turn. *)
Fixpoint emit_each {etype} (s : signal etype) (pl : list Args) (e : Env)
  : list call :=
  match pl with
  | [] => []
  | a :: pl' =>
      Emit (in_turn_schedule s a e) a ::
      emit_each s pl' (each_in_turn (funcs s) a e)
  end.

(** All the payloads entry [i] was invoked with over a run of emissions. *)
Definition deliveries {etype} (i : nat) (ms : list (activation etype))
  : list Args :=
  flat_map (λ m, invocations i (log m)) ms.

(** A callback that never throws, whatever it finds in the environment. *)
Inductive nothrow : code → Prop :=
| nothrow_Return : nothrow Return
| nothrow_Step act rest : (∀ e, nothrow (rest e)) → nothrow (Step act rest).

(** ** What holds along an [asynch] emission *)

(** How a finished call is stored in its future. *)
Definition stored (o : outcome) : option Exn :=
  match o with Returned _ => None | Thrown x _ => Some x end.

(** [c] is what is left of [c0] after some of its actions. *)
Inductive residual : code → code → Prop :=
| residual_here c : residual c c
| residual_later act rest e c :
    residual (rest e) c → residual (Step act rest) c.

(** The future [st] belongs to a task that was started on [c0]. *)
Definition task_of (c0 : code) (st : shared_state) : Prop :=
  match st with
  | launched c => c = c0
  | running c => residual c0 c
  | ready None => residual c0 Return
  | ready (Some x) => residual c0 (Throw x)
  | deferred c => c = c0
  end.

(** What the log holds of entry [i] when its future is in state [st]
    (or when there is no such future yet). *)
Definition logged (a : Args) (i : nat) (st : option shared_state)
    (l : list event) : Prop :=
  match st with
  | None | Some (launched _) | Some (deferred _) =>
      invocations i l = [] ∧ completions i l = []
  | Some (running _) => invocations i l = [a] ∧ completions i l = []
  | Some (ready r) => invocations i l = [a] ∧ completions i l = [r]
  end.

(** The states of an [asynch] emission of [a] on [s]: the caller never
    runs a callback itself, there is one future per callback it has gone
    past, in the same order, and the log agrees with the futures. *)
Definition asynch_inv (s : signal asynch) (a : Args) (m : activation asynch)
  : Prop :=
  this m = s ∧ args m = a ∧
  match pc m with
  | looping fn => fn = length (futures m) ∧ fn ≤ length (funcs s)
  | calling _ _ => False
  | leaving r => r = None ∧ length (futures m) = length (funcs s)
  end ∧
  (∀ i, logged a i (futures m !! i) (log m)) ∧
  (∀ i st, futures m !! i = Some st →
     ∃ f : std_function, funcs s !! i = Some f ∧ task_of (f a) st).


(** ** Runs come to an end *)

(** [next m' m]: some thread takes [m] to [m']. *)
Definition next {etype} (m' m : activation etype) : Prop :=
  ∃ t, step t m = Some m'.

(** The same for one future, and for a vector of futures of which one
    moves; a task the caller has still to hand over counts as launched,
    and may yet turn out deferred. *)
Inductive st_next : shared_state → shared_state → Prop :=
| st_next_defer c : st_next (deferred c) (launched c)
| st_next_start c : st_next (running c) (launched c)
| st_next_act act rest e : st_next (running (rest e)) (running (Step act rest))
| st_next_return : st_next (ready None) (running Return)
| st_next_throw x : st_next (ready (Some x)) (running (Throw x)).

Inductive fus_next : list shared_state → list shared_state → Prop :=
| fus_next_at j st st' fus :
    fus !! j = Some st → st_next st' st → fus_next (<[j:=st']> fus) fus.

(** The futures of an [asynch] emission together with the tasks the
    caller has still to hand over, and the number of steps the caller has
    still to take. *)
Definition all_tasks (m : activation asynch) : list shared_state :=
  futures m ++
  map (λ f : std_function, launched (f (args m)))
      (drop (length (futures m)) (funcs (this m))).

Definition caller_todo (m : activation asynch) : nat :=
  match pc m with
  | looping fn => S (length (funcs (this m)) - fn)
  | _ => 0
  end.

End signals.

(** ** The scenario of the specification, and callbacks to run the model on *)

(** A shared log of tagged integers; payloads are one [int]; exceptions
    carry a message. *)
Definition tagged_log := list (string * Z).

(** A handler that appends the integer it receives under its own tag. *)
Definition tagger (tag : string)
  : @std_function Z tagged_log string :=
  λ n, Step (λ l, l ++ [(tag, n)]) (λ _, Return).

(** A handler that throws at once, and one that writes twice. *)
Definition thrower (msg : string)
  : @std_function Z tagged_log string :=
  λ _, Throw msg.

Definition twice (tag : string)
  : @std_function Z tagged_log string :=
  λ n, Step (λ l, l ++ [(tag, n)])
         (λ _, Step (λ l, l ++ [(tag, n)]) (λ _, Return)).

(** The signal of the scenario: two taggers, ["A"] connected first. *)
Definition scenario (etype : emit_type)
  : @signal Z tagged_log string etype :=
  connect (tagger "B") (connect (tagger "A") (Signal [])).

(** A signal with a callback that throws between two taggers, and one with
    two callbacks that write twice. *)
Definition faulty (etype : emit_type)
  : @signal Z tagged_log string etype :=
  connect_all [tagger "A"; thrower "boom"; tagger "B"] (Signal []).

Definition writers (etype : emit_type)
  : @signal Z tagged_log string etype :=
  connect_all [twice "A"; twice "B"] (Signal []).

(** A signal on which one tagger was connected twice, around another. *)
Definition doubled (etype : emit_type)
  : @signal Z tagged_log string etype :=
  connect_all [tagger "A"; tagger "B"; tagger "A"] (Signal []).

(** Programs on these signals: two emissions of the scenario, and a
    [connect] followed by an emission. *)
Definition two_calls : list (@call Z tagged_log string) :=
  [Emit (synch_schedule (scenario synch) 7%Z []) 7%Z;
   Emit (synch_schedule (scenario synch) 8%Z [("A", 7%Z); ("B", 7%Z)]) 8%Z].

Definition connect_then_emit : list (@call Z tagged_log string) :=
  [Connect (tagger "C");
   Emit (synch_schedule (connect (tagger "C") (scenario synch)) 7%Z []) 7%Z].

(** The same on the [asynch] scenario.  In [two_calls_mixed] the first
    call has every task started and run in turn; in the second,
    [std::async] defers the task of the first callback and starts the task
    of the second.  In [deferring_all], [std::async] defers both tasks. *)
Definition deferring_all : schedule :=
  [caller_deferring; caller_deferring; caller].

Definition two_calls_mixed : list (@call Z tagged_log string) :=
  [Emit (asynch_schedule (scenario asynch) 7%Z []) 7%Z;
   Emit [caller_deferring; caller; caller; worker 1; worker 1; worker 1] 8%Z].

Definition two_calls_deferred : list (@call Z tagged_log string) :=
  [Emit deferring_all 7%Z; Emit deferring_all 8%Z].

Definition connect_then_emit_asynch : list (@call Z tagged_log string) :=
  [Connect (tagger "C");
   Emit (asynch_schedule (connect (tagger "C") (scenario asynch)) 7%Z []) 7%Z].

(** A [connect] followed by an emission in which the task of the new
    callback is deferred, and an emission on [doubled] in which the task of
    the last entry is. *)
Definition connect_then_defer : list (@call Z tagged_log string) :=
  [Connect (tagger "C");
   Emit [caller; caller; caller_deferring; caller;
         worker 0; worker 0; worker 0; worker 1; worker 1; worker 1] 7%Z].

Definition last_deferred : schedule :=
  [caller; caller; caller_deferring; caller;
   worker 0; worker 0; worker 0; worker 1; worker 1; worker 1].

(** The same on [faulty], where the second task throws at once. *)
Definition faulty_last_deferred : schedule :=
  [caller; caller; caller_deferring; caller;
   worker 0; worker 0; worker 0; worker 1; worker 1].

(** Programs and a signal with a callback that throws: [faulty] emitted
    twice, a [connect] after a callback that throws, and one tagger
    connected before and after a callback that throws. *)
Definition two_calls_faulty : list (@call Z tagged_log string) :=
  [Emit (synch_schedule (faulty synch) 7%Z []) 7%Z;
   Emit (synch_schedule (faulty synch) 8%Z [("A", 7%Z)]) 8%Z].

Definition connect_after_thrower : list (@call Z tagged_log string) :=
  [Connect (tagger "C");
   Emit (synch_schedule
           (connect_all [tagger "A"; thrower "boom"; tagger "C"] (Signal []))
           7%Z []) 7%Z].

Definition before_thrower : @signal Z tagged_log string synch :=
  connect_all [tagger "A"; thrower "boom"] (Signal []).

Definition doubled_around_thrower : @signal Z tagged_log string synch :=
  connect_all [tagger "A"; thrower "boom"; tagger "A"] (Signal []).

(** A schedule for [writers] in which the two tasks take turns. *)
Definition taking_turns : schedule :=
  [caller; caller; caller;
   worker 0; worker 1; worker 0; worker 1;
   worker 0; worker 1; worker 0; worker 1].


(** Running the model on an example: the run is computed and given as the
    witness of an existential statement. *)
Ltac run_model := vm_compute; reflexivity.

Ltac exists_run t :=
  let r := eval vm_compute in t in
  lazymatch r with
  | Some (?s, ?e, ?ms) => exists s, e, ms
  | Some ?m => exists m
  end.

(** * More of the code: emissions that compose, and the demo's [vm] *)

Section emissions.
Context {Args Env Exn : Type}.

(** What the emitter of a [synch] signal gets from [emit(args...)]: the
    machine has one run, and [in_order] is what it ends with (lemma
    [synch_emit_in_order]). *)
Definition emit_synch (s : @signal Args Env Exn synch) (a : Args) (e : Env)
  : @outcome Env Exn :=
  (in_order 0 (funcs s) a e []).1.

(** A callback that does all its work in one atomic action, such as a
    slot that holds a mutex from its first statement to its last
    ([server::vm_booted], [server::vm_data]): at most one action, after
    which it returns or throws. *)
Definition one_action (c : @code Env Exn) : Prop :=
  match c with
  | Return | Throw _ => True
  | Step _ rest => ∀ e, match rest e with Step _ _ => False | _ => True end
  end.

(** What a call of entry [i] does to the environment when nothing else
    runs meanwhile. *)
Definition effect (fs : list (@std_function Args Env Exn)) (a : Args)
    (i : nat) (e : Env) : Env :=
  match (fs !! i : option (@std_function Args Env Exn)) with
  | Some f => env_of (run (f a) e)
  | None => e
  end.

(** A task that has nothing left to do to the environment. *)
Definition acted (st : @shared_state Env Exn) : bool :=
  match st with
  | launched _ | deferred _ | running (Step _ _) => false
  | _ => true
  end.

(** Along an [asynch] emission of one-action callbacks: the environment
    is what the callbacks that have acted make of the initial one, called
    one after the other in the order [order] in which they acted. *)
Definition serial_inv (s : @signal Args Env Exn asynch) (a : Args) (e0 : Env)
    (m : @activation Args Env Exn asynch) : Prop :=
  ∃ order : list nat,
    NoDup order ∧
    env m = foldl (λ e i, effect (funcs s) a i e) e0 order ∧
    ∀ i, i ∈ order ↔ ∃ st, futures m !! i = Some st ∧ acted st = true.

(** Along an [asynch] emission with one callback: what is left of the
    task, run from the environment as it is, ends as the whole call would
    have from the initial environment. *)
Definition rest_of (c0 : @code Env Exn) (e0 : Env)
    (st : @shared_state Env Exn) (e : Env) : Prop :=
  match st with
  | launched c | running c => run c e = run c0 e0
  | ready r => e = env_of (run c0 e0) ∧ r = stored (run c0 e0)
  | deferred _ => e = e0
  end.

(** Every action of the callback keeps the property [P] of the
    environment. *)
Inductive keeps (P : Env → Prop) : @code Env Exn → Prop :=
| keeps_Return : keeps P Return
| keeps_Throw x : keeps P (Throw x)
| keeps_Step act rest :
    (∀ e, P e → P (act e)) → (∀ e, keeps P (rest e)) →
    keeps P (Step act rest).

(** What is still to run in a state of an emission keeps [P]. *)
Definition keeping (P : Env → Prop) {etype}
    (m : @activation Args Env Exn etype) : Prop :=
  P (env m) ∧
  (∀ fn c, pc m = calling fn c → keeps P c) ∧
  (∀ j c, futures m !! j = Some (launched c) ∨
          futures m !! j = Some (running c) → keeps P c).


End emissions.


(** ** The demo: [class vm] ([slots_signals.cpp]) *)

Section vm_class.
Context {Env Exn : Type}.

(** [cout << ... << endl]: a line written to standard output, which is
    part of the environment. *)
Variable cout : string → Env → Env.

(** The members of a [vm] that its methods read or write.  [ms] and
    [rand] only set how long the methods sleep, and sleeping is not
    modelled.  [id] is an [int]; [pretty] is [std::to_string] on it. *)
Record vm := Vm {
  id : Z;
  booted : bool;
  boot_count : Z;
  tasks : list string;
  signal_data : @signal string Env Exn synch;
  signal_boot : @signal Z Env Exn synch
}.

(** [vm(int i):id{i}{ cout << "Created vm " << i << endl;}] *)
Definition vm_create (i : Z) (e : Env) : vm * Env :=
  (Vm i false 0 [] (Signal []) (Signal []),
   cout ("Created vm " +:+ pretty i) e).

(** [vm(const vm& v) :id{v.id},booted{v.booted},boot_count{v.boot_count} {}]:
    the other members are initialized afresh. *)
Definition vm_copy (v : vm) : vm :=
  Vm (id v) (booted v) (boot_count v) [] (Signal []) (Signal []).

(** [int get_id(){return id;}] *)
Definition get_id (v : vm) : Z := id v.

(** [void on_data_out(function< void(string)> fn){ signal_data.connect(fn); }] *)
Definition on_data_out (fn : @std_function string Env Exn) (v : vm) : vm :=
  Vm (id v) (booted v) (boot_count v) (tasks v)
    (connect fn (signal_data v)) (signal_boot v).

(** [signal_boot] is a public member: [v->signal_boot.connect(fn)]. *)
Definition connect_boot (fn : @std_function Z Env Exn) (v : vm) : vm :=
  Vm (id v) (booted v) (boot_count v) (tasks v)
    (signal_data v) (connect fn (signal_boot v)).

(** The strings the methods build. *)
Definition received (i : Z) (s : string) : string :=
  (pretty i +:+ ": Task recieved: ") +:+ s.

Definition solving (i : Z) (task : string) : string :=
  ("VM " +:+ pretty i) +:+ " Solving task: " +:+ task.

Definition page (i : Z) : string :=
  ("<html>... VM " +:+ pretty i) +:+ "...</html>".

(** [void data_in(string s)]: [tasks.push_back(s)], a sleep, and
    [signal_data.emit(string(to_string(id)+": Task recieved: ")+s)]. *)
Definition data_in (s : string) (v : vm) (e : Env) : vm * @outcome Env Exn :=
  let v' := Vm (id v) (booted v) (boot_count v) (tasks v ++ [s])
              (signal_data v) (signal_boot v) in
  (v', emit_synch (signal_data v') (received (id v) s) e).

(** [void kill()]: a line to standard output, and [booted=false]. *)
Definition kill (v : vm) (e : Env) : vm * Env :=
  (Vm (id v) false (boot_count v) (tasks v) (signal_data v) (signal_boot v),
   cout (("Vm " +:+ pretty (id v)) +:+ " going down.") e).

(** One turn of the loop of [boot]: the page of the vm is the data, unless
    there is a task, in which case the last task is taken off [tasks]
    ([tasks.back()], [tasks.pop_back()]) and the data says so; then
    [signal_data.emit(data)]. *)
Definition turn (v : vm) (e : Env) : vm * @outcome Env Exn :=
  match last (tasks v) with
  | Some task =>
      (Vm (id v) (booted v) (boot_count v) (removelast (tasks v))
         (signal_data v) (signal_boot v),
       emit_synch (signal_data v) (solving (id v) task) e)
  | None => (v, emit_synch (signal_data v) (page (id v)) e)
  end.

(** [n] turns of the loop, unless an exception leaves it before. *)
Fixpoint turns (n : nat) (v : vm) (e : Env) : vm * @outcome Env Exn :=
  match n with
  | 0 => (v, Returned e)
  | S n' =>
      match turn v e with
      | (v', Returned e') => turns n' v' e'
      | (v', Thrown x e') => (v', Thrown x e')
      end
  end.

(** [void boot()]: [assert(!booted)] (no result when it fails),
    [signal_boot.emit(id)], [booted=true], and the loop [while(booted)],
    which only another thread can end, by [kill]: [n] is the number of
    turns the loop makes before it sees that, and the vm is given as the
    last of these turns leaves it. *)
Definition boot (n : nat) (v : vm) (e : Env)
  : option (vm * @outcome Env Exn) :=
  if booted v then None
  else
    match emit_synch (signal_boot v) (id v) e with
    | Returned e' =>
        Some (turns n
                (Vm (id v) true (boot_count v) (tasks v)
                   (signal_data v) (signal_boot v)) e')
    | Thrown x e' => Some (v, Thrown x e')
    end.

(** The data of the first [n] turns of the loop of a vm that starts them
    with the tasks [ts]: the tasks from the last one pushed, then the
    page. *)
Definition turn_data (i : Z) (n : nat) (ts : list string) : list string :=
  map (solving i) (take n (reverse ts)) ++ replicate (n - length ts) (page i).

End vm_class.

(** ** The demo: the slots of [class server] *)

Module server.

(** What the slots of the server act on: its count of the vms that are up
    ([int booted{0}]) and standard output, line by line. *)
Record world := World { booted : Z; console : list string }.

Definition cout (line : string) (w : world) : world :=
  World (booted w) (console w ++ [line]).

(** The values of an [int], 32 bits in two's complement: what an
    arithmetic result is stored as.  ([booted++] at [INT_MAX] is undefined
    in C++; the wrap-around is what the machine does.) *)
Definition int (z : Z) : Z :=
  ((z + 2147483648) mod 4294967296 - 2147483648)%Z.
Global Arguments int : simpl never.

(** [void vm_booted(int i)]: between [mtx.lock()] and [mtx.unlock()],
    [booted++] and a line that names the vm, the thread the slot runs on
    (as [this_thread::get_id()] prints it, here [tid]) and the count. *)
Definition vm_booted (tid : string) : @std_function Z world string :=
  λ i, Step (λ w, cout (((((("Vm " +:+ pretty i) +:+ " booted from thread  ")
                           +:+ tid) +:+ ". ")
                         +:+ pretty (int (booted w + 1)))
                        +:+ " vm's are up")
                   (World (int (booted w + 1)) (console w)))
         (λ _, Return).

(** [void vm_data(string s)]: between [mtx.lock()] and [mtx.unlock()],
    a line with the data. *)
Definition vm_data : @std_function string world string :=
  λ s, Step (cout ("Data from VM: " +:+ s)) (λ _, Return).

(** What [run] connects to a vm before it boots it:
    [v->signal_boot.connect([&](int i){ vm_booted(i); })] and
    [v->on_data_out([&](string s){ vm_data(s); })]. *)
Definition wire (tid : string) (v : @vm world string) : @vm world string :=
  on_data_out vm_data (connect_boot (vm_booted tid) v).

End server.

(** A schedule for the scenario in which the second task runs first. *)
Definition second_first : schedule :=
  [caller; caller; caller; worker 1; worker 1; worker 1;
   worker 0; worker 0; worker 0].

(** A schedule for [doubled] in which the second task runs first. *)
Definition second_first_doubled : schedule :=
  [caller; caller; caller; caller; worker 1; worker 1; worker 1;
   worker 0; worker 0; worker 0; worker 2; worker 2; worker 2].


(** A signal with one tagger, and a vm as [run] has it before it boots it,
    with two tasks waiting. *)
Definition lone (etype : emit_type)
  : @signal Z tagged_log string etype :=
  connect (tagger "A") (Signal []).

Definition demo_vm : @vm server.world string :=
  server.wire "t1" (Vm 3%Z false 0%Z ["backup"; "maintenance"]
                      (Signal []) (Signal [])).


(** * Properties *)

Section facts.
Context {Args Env Exn : Type}.
Implicit Types (a : Args) (e : Env) (x : Exn) (c : @code Env Exn).
Implicit Types (f : @std_function Args Env Exn).
Implicit Types (fs : list (@std_function Args Env Exn)).
Implicit Types (l : list (@event Args Exn)) (o : @outcome Env Exn).
Implicit Types (st : @shared_state Env Exn) (sched : schedule).
Implicit Types (ost : option (@shared_state Env Exn)).
Implicit Types (fus : list (@shared_state Env Exn)).

(** The iterator [fn] sees [*fn] and then what [fn++] sees. *)
Lemma funcs_drop_S fs (fn : nat) f :
  fs !! fn = Some f → drop fn fs = f :: drop (S fn) fs.
Proof. apply drop_S. Qed.

(** ** Schedules *)

Section exec_facts.
Context {etype : emit_type}.
Implicit Types (m : @activation Args Env Exn etype).
Implicit Types (s : @signal Args Env Exn etype).

Lemma exec_app (s1 s2 : schedule) m :
  exec (s1 ++ s2) m = exec s1 m ≫= exec s2.
Proof.
  revert m. induction s1 as [|t s1 IH]; intros m; simpl; [done|].
  destruct (step t m); simpl; auto.
Qed.

Lemma exec_snoc (sched : schedule) t m m1 :
  exec sched m = Some m1 → exec (sched ++ [t]) m = step t m1.
Proof.
  intros H. rewrite exec_app, H. simpl. by destruct (step t m1).
Qed.

(** Induction on executions from the last step. *)
Lemma exec_ind_r (P : activation etype → Prop) m :
  P m →
  (∀ t m1 m2, P m1 → step t m1 = Some m2 → P m2) →
  ∀ sched m', exec sched m = Some m' → P m'.
Proof.
  intros H0 Hstep sched. revert m H0.
  induction sched as [|t sched IH]; intros m H0 m' H; simpl in H.
  - by inversion H; subst.
  - destruct (step t m) as [m1|] eqn:E; [|done].
    eapply IH; [|exact H]. eapply Hstep; eauto.
Qed.

(** The step in which [std::async] defers the task: there is none
    but at a call of [std::async], which only the [asynch] policy makes. *)
Lemma deferring_step m m' :
  step caller_deferring m = Some m' →
  etype = asynch ∧
  ∃ fn f, pc m = looping fn ∧ funcs (this m) !! fn = Some f ∧
    m' = Activation (this m) (args m) (looping (S fn))
           (futures m ++ [deferred (f (args m))]) (env m) (log m).
Proof.
  simpl. unfold dispatching, caller_step.
  destruct (pc m) as [fn| |]; [|done..].
  destruct etype; [done|].
  case_bool_decide as Hfn; [|done].
  destruct (lookup_lt_is_Some_2 (funcs (this m)) fn Hfn) as [f Hf].
  rewrite Hf. intros [= <-]. split; [done|]. by exists fn, f.
Qed.

(** A step is one of the caller or one of a task. *)
Lemma step_cases t m m' :
  step t m = Some m' →
  (∃ how, caller_step how m = Some m') ∨ (∃ j, worker_step j m = Some m').
Proof.
  destruct t as [| |j]; simpl; intros H.
  - left. by exists on_thread.
  - left. exists on_demand. by destruct (dispatching m).
  - right. by exists j.
Qed.

(** No step writes to the signal or to the payload. *)
Lemma step_frame t m m' :
  step t m = Some m' → this m' = this m ∧ args m' = args m.
Proof.
  destruct t as [| |j]; simpl.
  - unfold caller_step. destruct (pc m) as [fn|fn [|x|act rest]|r].
    + destruct (funcs (this m) !! fn); [destruct etype|];
        intros [= <-]; done.
    + intros [= <-]; done.
    + intros [= <-]; done.
    + intros [= <-]; done.
    + done.
  - intros H. apply deferring_step in H as (_ & fn & f & _ & _ & ->). done.
  - unfold worker_step.
    destruct (futures m !! j) as [[c|[|x|act rest]|r|c]|];
      try done; intros [= <-]; done.
Qed.

Lemma exec_frame sched m m' :
  exec sched m = Some m' → this m' = this m ∧ args m' = args m.
Proof.
  intros H.
  refine (exec_ind_r (λ m1, this m1 = this m ∧ args m1 = args m)
            m _ _ sched m' H); [done|].
  intros t m1 m2 [H1 H2] Hs. apply step_frame in Hs as [-> ->]. done.
Qed.

End exec_facts.

(** ** The [synch] policy: the machine computes [in_order] *)

Section synch_facts.
Implicit Types (m : @activation Args Env Exn synch).
Implicit Types (s : @signal Args Env Exn synch).

(** [futures] stays empty, so the caller's thread is the only one. *)
Lemma synch_step_caller t m m' :
  futures m = [] → step t m = Some m' → t = caller ∧ futures m' = [].
Proof.
  intros Hf. destruct t as [| |j]; simpl.
  - unfold caller_step. destruct (pc m) as [fn|fn [|x|act rest]|r].
    + destruct (funcs (this m) !! fn); intros [= <-]; done.
    + intros [= <-]; done.
    + intros [= <-]; done.
    + intros [= <-]; done.
    + done.
  - unfold dispatching. by destruct (pc m).
  - unfold worker_step. rewrite Hf. done.
Qed.

Lemma synch_exec_caller sched m m' :
  futures m = [] → exec sched m = Some m' →
  sched = replicate (length sched) caller ∧ futures m' = [].
Proof.
  revert m. induction sched as [|t sched IH]; intros m Hf H; simpl in H.
  - by inversion H; subst.
  - destruct (step t m) as [m1|] eqn:E; [|done].
    destruct (synch_step_caller _ _ _ Hf E) as [-> Hf1].
    destruct (IH _ Hf1 H) as [Hs Hf']. simpl. by rewrite <- Hs.
Qed.

Lemma synch_final_step m m' :
  caller_step on_thread m = Some m' → synch_final m' = synch_final m.
Proof.
  unfold caller_step, synch_final.
  destruct (pc m) as [fn|fn [|x|act rest]|r] eqn:Hpc.
  - destruct (funcs (this m) !! fn) as [f|] eqn:Hl; intros [= <-]; simpl.
    + rewrite (funcs_drop_S _ _ _ Hl). simpl.
      destruct (run (f (args m)) (env m)); by rewrite <- app_assoc.
    + apply lookup_ge_None in Hl. by rewrite drop_ge.
  - intros [= <-]; done.
  - intros [= <-]; done.
  - intros [= <-]; done.
  - done.
Qed.

Lemma synch_final_exec sched m m' :
  futures m = [] → exec sched m = Some m' → synch_final m' = synch_final m.
Proof.
  revert m. induction sched as [|t sched IH]; intros m Hf H; simpl in H.
  - by inversion H; subst.
  - destruct (step t m) as [m1|] eqn:E; [|done].
    destruct (synch_step_caller _ _ _ Hf E) as [-> Hf1].
    rewrite (IH _ Hf1 H). by apply synch_final_step.
Qed.

Lemma synch_final_exited m :
  exited m = true →
  result m = Some (synch_final m).1 ∧ log m = (synch_final m).2.
Proof.
  unfold exited, result, synch_final.
  destruct (pc m) as [fn|fn c|[x|]]; done.
Qed.

(** The caller's thread gets through a call in [call_steps] steps. *)
Lemma call_steps_exec c : ∀ fn s a fus e l,
  exec (replicate (call_steps c e) caller)
    (Activation (etype:=synch) s a (calling fn c) fus e l) =
  Some (match run c e with
        | Returned e' =>
            Activation s a (looping (S fn)) fus e' (l ++ [Complete fn None])
        | Thrown x e' =>
            Activation s a (leaving (Some x)) fus e'
              (l ++ [Complete fn (Some x)])
        end).
Proof.
  induction c as [|x|act rest IH]; intros fn s a fus e l; simpl; [done..|].
  apply IH.
Qed.

(** ... and through the rest of the loop in [loop_steps] steps. *)
Lemma loop_steps_exec (s : signal synch) a : ∀ fs fn e l,
  drop fn (funcs s) = fs →
  ∃ m', exec (replicate (loop_steps fs a e) caller)
          (Activation s a (looping fn) [] e l) = Some m' ∧
        exited m' = true.
Proof.
  induction fs as [|f fs IH]; intros fn e l Hd.
  - simpl. unfold caller_step; simpl.
    assert (funcs s !! fn = None) as ->.
    { apply lookup_ge_None. apply (f_equal length) in Hd.
      rewrite length_drop in Hd. simpl in Hd. lia. }
    eexists; split; [done|done].
  - assert (funcs s !! fn = Some f) as Hl.
    { rewrite <- (Nat.add_0_r fn), <- lookup_drop, Hd. done. }
    simpl. unfold caller_step at 1; simpl. rewrite Hl.
    rewrite replicate_add, exec_app, call_steps_exec. simpl.
    destruct (run (f a) e) as [e'|x e'].
    + apply IH. rewrite (funcs_drop_S _ _ _ Hl) in Hd. by inversion Hd.
    + simpl. eexists; split; [done|done].
Qed.

(** A [synch] emission has one schedule, and it leads to what the
    sequential reading of the loop gives. *)
Lemma synch_emit_total (s : signal synch) a e :
  ∃ m, emit (synch_schedule s a e) s a e = Some m.
Proof.
  destruct (loop_steps_exec s a (funcs s) 0 e [] eq_refl) as (m & H & Hx).
  exists m. unfold emit, synch_schedule, enter. by rewrite H, Hx.
Qed.

Lemma synch_emit_in_order sched (s : signal synch) a e m :
  emit sched s a e = Some m →
  this m = s ∧ futures m = [] ∧
  result m = Some (in_order 0 (funcs s) a e []).1 ∧
  log m = (in_order 0 (funcs s) a e []).2.
Proof.
  unfold emit. destruct (exec sched (enter s a e)) as [m1|] eqn:E; [|done].
  destruct (exited m1) eqn:Hx; [|done]. intros [= ->].
  destruct (synch_exec_caller sched (enter s a e) m eq_refl E) as [_ Hf].
  pose proof (synch_final_exec sched (enter s a e) m eq_refl E) as Hfin.
  destruct (synch_final_exited _ Hx) as [Hr Hl].
  destruct (exec_frame _ _ _ E) as [Ht _].
  rewrite Hr, Hl, Hfin. done.
Qed.

End synch_facts.


(** ** Logs *)

Lemma invocations_app i l1 l2 :
  invocations i (l1 ++ l2) = invocations i l1 ++ invocations i l2.
Proof.
  induction l1 as [|[j a|j r] l1 IH]; simpl; [done| |done].
  destruct (decide (j = i)); simpl; by rewrite ?IH.
Qed.

Lemma completions_app i l1 l2 :
  completions i (l1 ++ l2) = completions i l1 ++ completions i l2.
Proof.
  induction l1 as [|[j a|j r] l1 IH]; simpl; [done|done|].
  destruct (decide (j = i)); simpl; by rewrite ?IH.
Qed.

Lemma one_by_one_S a fn n :
  one_by_one a fn (S n) =
  [Invoke fn a; Complete fn (None : option Exn)] ++ one_by_one a (S fn) n.
Proof. done. Qed.

Lemma invocations_one_by_one a i n : ∀ fn,
  invocations i (one_by_one (Exn:=Exn) a fn n) =
  if decide (fn ≤ i < fn + n) then [a] else [].
Proof.
  induction n as [|n IH]; intros fn.
  - simpl. destruct (decide _); [lia|done].
  - rewrite one_by_one_S, invocations_app, IH. simpl.
    repeat destruct (decide _); simpl; try done; lia.
Qed.

Lemma completions_one_by_one a i n : ∀ fn,
  completions i (one_by_one (Exn:=Exn) a fn n) =
  if decide (fn ≤ i < fn + n) then [None] else [].
Proof.
  induction n as [|n IH]; intros fn.
  - simpl. destruct (decide _); [lia|done].
  - rewrite one_by_one_S, completions_app, IH. simpl.
    repeat destruct (decide _); simpl; try done; lia.
Qed.

Lemma one_by_one_no_failure a k x n : ∀ fn,
  Complete k (Some x) ∉ one_by_one a fn n.
Proof.
  induction n as [|n IH]; intros fn.
  - apply not_elem_of_nil.
  - rewrite one_by_one_S. intros H. apply elem_of_app in H as [H|H].
    + apply elem_of_cons in H as [H|H]; [done|].
      apply elem_of_cons in H as [H|H]; [done|]. by apply elem_of_nil in H.
    + by apply IH in H.
Qed.

Lemma one_by_one_snoc a fn n :
  one_by_one (Exn:=Exn) a fn (S n) =
  one_by_one a fn n ++ [Invoke (fn + n) a; Complete (fn + n) None].
Proof.
  unfold one_by_one. rewrite seq_S, flat_map_app. simpl. done.
Qed.

(** The log of the sequential reading: the callbacks one by one from the
    first, up to the end of the vector or to the first that throws. *)
Lemma in_order_log fs : ∀ (fn : nat) a e l,
  match in_order fn fs a e l with
  | (Returned _, l') => l' = l ++ one_by_one a fn (length fs)
  | (Thrown x _, l') =>
      ∃ k, k < length fs ∧
           l' = l ++ one_by_one a fn k ++
                [Invoke (fn + k) a; Complete (fn + k) (Some x)]
  end.
Proof.
  induction fs as [|f fs IH]; intros fn a e l; simpl.
  - by rewrite app_nil_r.
  - destruct (run (f a) e) as [e'|x e'].
    + specialize (IH (S fn) a e' (l ++ [Invoke fn a; Complete fn None])).
      destruct (in_order _ _ _ _ _) as [[e''|x e''] l'].
      * rewrite IH, one_by_one_S, <- app_assoc. done.
      * destruct IH as (k & Hk & ->). exists (S k). split; [lia|].
        rewrite one_by_one_S, <- !app_assoc.
        replace (fn + S k) with (S fn + k) by lia. done.
    + exists 0. split; [lia|]. simpl. by rewrite Nat.add_0_r.
Qed.

(** ** The [asynch] policy: what every state of an emission satisfies *)

Section asynch_facts.
Implicit Types (m : @activation Args Env Exn asynch).
Implicit Types (s : @signal Args Env Exn asynch).

Lemma residual_step c0 act rest e :
  residual c0 (Step act rest) → residual c0 (rest e).
Proof.
  intros H. remember (Step act rest) as c eqn:Hc.
  induction H as [c|act' rest' e' c H IH]; subst.
  - apply (residual_later _ _ e). apply residual_here.
  - apply (residual_later _ _ e'). by apply IH.
Qed.

Lemma nothrow_residual c0 c : nothrow c0 → residual c0 c → nothrow c.
Proof.
  intros Hn H. induction H as [c|act rest e c H IH]; [done|].
  apply IH. by inversion Hn.
Qed.

(** An event of another entry leaves what the log holds of entry [i]. *)
Lemma logged_Invoke a a' i j ost l :
  i ≠ j → logged a i ost l → logged a i ost (l ++ [Invoke j a']).
Proof.
  intros Hne. unfold logged.
  rewrite invocations_app, completions_app. simpl.
  destruct (decide (j = i)); [congruence|]. by rewrite !app_nil_r.
Qed.

Lemma logged_Complete a i j r ost l :
  i ≠ j → logged a i ost l → logged a i ost (l ++ [Complete j r]).
Proof.
  intros Hne. unfold logged.
  rewrite invocations_app, completions_app. simpl.
  destruct (decide (j = i)); [congruence|]. by rewrite !app_nil_r.
Qed.

Lemma asynch_inv_enter s a e : asynch_inv s a (enter s a e).
Proof.
  unfold asynch_inv, enter; simpl. repeat split; try done; lia.
Qed.

Lemma asynch_inv_caller how s a m m' :
  asynch_inv s a m → caller_step how m = Some m' → asynch_inv s a m'.
Proof.
  destruct m as [s0 a0 p fus e l].
  intros (Hs & Ha & Hpc & Hlog & Htask); simpl in *; subst s0 a0.
  unfold caller_step; simpl.
  destruct p as [fn|fn c|r]; [|done..]. destruct Hpc as [-> Hle].
  destruct (funcs s !! length fus) as [f|] eqn:Hl; intros [= <-].
  - apply lookup_lt_Some in Hl as Hlt.
    unfold asynch_inv; simpl. repeat split; try done.
    + rewrite length_app. simpl. lia.
    + intros i. destruct (decide (i < length fus)) as [Hi|Hi].
      * rewrite lookup_app_l by done. apply Hlog.
      * specialize (Hlog i). rewrite lookup_ge_None_2 in Hlog by lia.
        rewrite lookup_app_r by lia.
        destruct (i - length fus) as [|k]; [destruct how|]; simpl; done.
    + intros i st Hi. apply lookup_app_Some in Hi as [Hi|[Hge Hi]].
      * by apply Htask.
      * destruct (i - length fus) as [|k] eqn:Hk; simpl in Hi; [|done].
        injection Hi as <-. exists f. split; [|by destruct how].
        by replace i with (length fus) by lia.
  - apply lookup_ge_None_1 in Hl.
    unfold asynch_inv; simpl. repeat split; try done. lia.
Qed.

Lemma asynch_inv_worker s a j m m' :
  asynch_inv s a m → worker_step j m = Some m' → asynch_inv s a m'.
Proof.
  destruct m as [s0 a0 p fus e l].
  intros (Hs & Ha & Hpc & Hlog & Htask); simpl in *; subst s0 a0.
  unfold worker_step; simpl.
  destruct (fus !! j) as [st|] eqn:Hj; [|done].
  apply lookup_lt_Some in Hj as Hlt.
  pose proof (Hlog j) as Hlj. rewrite Hj in Hlj.
  destruct (Htask j st Hj) as (f & Hf & Hst).
  assert (∀ st' l',
    logged a j (Some st') l' →
    (∀ i, i ≠ j → logged a i (fus !! i) l → logged a i (fus !! i) l') →
    task_of (f a) st' →
    asynch_inv s a (Activation s a p (<[j:=st']> fus) e l')) as Hkeep.
  { intros st' l' H1 H2 H3. unfold asynch_inv; simpl. repeat split; try done.
    - rewrite length_insert. done.
    - intros i. destruct (decide (i = j)) as [->|Hne].
      + by rewrite list_lookup_insert_eq.
      + rewrite list_lookup_insert_ne by done. by apply H2.
    - intros i st0. destruct (decide (i = j)) as [->|Hne].
      + rewrite list_lookup_insert_eq by done. intros [= <-]. by exists f.
      + rewrite list_lookup_insert_ne by done. apply Htask. }
  assert (∀ e' st',
    (∀ i, logged a i (<[j:=st']> fus !! i) l) →
    task_of (f a) st' →
    asynch_inv s a (Activation s a p (<[j:=st']> fus) e' l)) as Hquiet.
  { intros e' st' H1 H3. unfold asynch_inv; simpl. repeat split; try done.
    - rewrite length_insert. done.
    - intros i st0. destruct (decide (i = j)) as [->|Hne].
      + rewrite list_lookup_insert_eq by done. intros [= <-]. by exists f.
      + rewrite list_lookup_insert_ne by done. apply Htask. }
  destruct st as [c|[|x|act rest]|r|c]; intros [= <-].
  - apply Hkeep.
    + destruct Hlj as [H1 H2]. unfold logged.
      rewrite invocations_app, completions_app, H1, H2. simpl.
      by destruct (decide (j = j)).
    + intros i Hne. by apply logged_Invoke.
    + simpl in *. subst c. apply residual_here.
  - apply Hkeep.
    + destruct Hlj as [H1 H2]. unfold logged.
      rewrite invocations_app, completions_app, H1, H2. simpl.
      by destruct (decide (j = j)).
    + intros i Hne. by apply logged_Complete.
    + done.
  - apply Hkeep.
    + destruct Hlj as [H1 H2]. unfold logged.
      rewrite invocations_app, completions_app, H1, H2. simpl.
      by destruct (decide (j = j)).
    + intros i Hne. by apply logged_Complete.
    + done.
  - apply Hquiet.
    + intros i. destruct (decide (i = j)) as [->|Hne].
      * by rewrite list_lookup_insert_eq.
      * rewrite list_lookup_insert_ne by done. apply Hlog.
    + simpl in *. by apply (residual_step _ act).
Qed.

Lemma asynch_inv_step s a t m m' :
  asynch_inv s a m → step t m = Some m' → asynch_inv s a m'.
Proof.
  intros H1 Hs. destruct t as [| |j]; simpl in Hs.
  - eapply asynch_inv_caller; eauto.
  - destruct (dispatching m); [|done]. eapply asynch_inv_caller; eauto.
  - eapply asynch_inv_worker; eauto.
Qed.

Lemma asynch_inv_exec s a sched m m' :
  asynch_inv s a m → exec sched m = Some m' → asynch_inv s a m'.
Proof.
  intros H0 H.
  refine (exec_ind_r (asynch_inv s a) m H0 _ sched m' H).
  intros t m1 m2 H1 Hs. by eapply asynch_inv_step.
Qed.

End asynch_facts.

Section asynch_join.
Implicit Types (m : @activation Args Env Exn asynch).
Implicit Types (s : @signal Args Env Exn asynch).
Implicit Types (pre : list (@shared_state Env Exn)) (p : @control Env Exn).

Lemma all_ready_lookup fus : ∀ i st,
  forallb is_ready fus = true → fus !! i = Some st → ∃ r, st = ready r.
Proof.
  induction fus as [|st0 fus IH]; intros i st H Hi; [done|].
  simpl in H. apply andb_true_iff in H as [H0 H].
  destruct i as [|i]; simpl in Hi.
  - injection Hi as <-. destruct st0; try done. by eexists.
  - by apply (IH i).
Qed.

Lemma all_let_go_lookup fus : ∀ i st,
  forallb lets_go fus = true → fus !! i = Some st →
  (∃ r, st = ready r) ∨ (∃ c, st = deferred c).
Proof.
  induction fus as [|st0 fus IH]; intros i st H Hi; [done|].
  simpl in H. apply andb_true_iff in H as [H0 H].
  destruct i as [|i]; simpl in Hi.
  - injection Hi as <-. destruct st0; try done; eauto.
  - by apply (IH i).
Qed.

Lemma all_ready_let_go fus :
  forallb is_ready fus = true → forallb lets_go fus = true.
Proof.
  induction fus as [|st fus IH]; [done|]. simpl.
  intros [H1 H2]%andb_true_iff. rewrite IH by done. by destruct st.
Qed.

Lemma asynch_emit_inv sched s a e m :
  emit sched s a e = Some m → asynch_inv s a m ∧ exited m = true.
Proof.
  unfold emit. destruct (exec sched (enter s a e)) as [m1|] eqn:E; [|done].
  destruct (exited m1) eqn:Hx; [|done]. intros [= ->]. split; [|done].
  eapply asynch_inv_exec; [apply asynch_inv_enter|exact E].
Qed.

(** When an [asynch] emission is left, the caller returns normally and
    there is a future for every callback.  The future of a task that
    [std::async] started on a thread is ready: its callback was invoked
    once, with the payload, and has come to its end.  The future of a task
    that [std::async] deferred still holds the task: its callback was not
    invoked. *)
Lemma asynch_emit_joined sched s a e m :
  emit sched s a e = Some m →
  this m = s ∧ pc m = leaving None ∧
  length (futures m) = length (funcs s) ∧
  ∀ i f, funcs s !! i = Some f →
    (∃ r, futures m !! i = Some (ready r) ∧ task_of (f a) (ready r) ∧
          invocations i (log m) = [a] ∧ completions i (log m) = [r]) ∨
    (futures m !! i = Some (deferred (f a)) ∧
     invocations i (log m) = [] ∧ completions i (log m) = []).
Proof.
  intros H. apply asynch_emit_inv in H as [(Hs & Ha & Hpc & Hlog & Htask) Hx].
  unfold exited in Hx. destruct (pc m) as [fn|fn c|r0]; [done..|].
  destruct Hpc as [-> Hlen]. repeat split; try done.
  intros i f Hf. apply lookup_lt_Some in Hf as Hlt.
  destruct (lookup_lt_is_Some_2 (futures m) i) as [st Hst]; [lia|].
  specialize (Hlog i). rewrite Hst in Hlog.
  destruct (Htask i _ Hst) as (f' & Hf' & Ht).
  rewrite Hf in Hf'. injection Hf' as <-.
  destruct (all_let_go_lookup _ _ _ Hx Hst) as [[r ->]|[c ->]].
  - left. destruct Hlog as [H1 H2]. by exists r.
  - right. simpl in Ht. subst c. by destruct Hlog.
Qed.

(** *** Every state of an emission can be taken to the end *)

Lemma task_schedule_exec c : ∀ j s a p fus e l,
  j < length fus →
  exec (task_schedule j c e)
    (Activation (etype:=asynch) s a p (<[j:=running c]> fus) e l) =
  Some (Activation s a p (<[j:=ready (stored (run c e))]> fus)
          (env_of (run c e)) (l ++ [Complete j (stored (run c e))])).
Proof.
  induction c as [|x|act rest IH]; intros j s a p fus e l Hj; simpl.
  - unfold worker_step; simpl. rewrite list_lookup_insert_eq by done.
    by rewrite list_insert_insert_eq.
  - unfold worker_step; simpl. rewrite list_lookup_insert_eq by done.
    by rewrite list_insert_insert_eq.
  - unfold worker_step at 1; simpl. rewrite list_lookup_insert_eq by done.
    rewrite list_insert_insert_eq. by apply IH.
Qed.

Lemma future_schedule_exec st j s a p fus e l :
  j < length fus →
  ∃ st' l',
    exec (future_schedule j st e)
      (Activation (etype:=asynch) s a p (<[j:=st]> fus) e l) =
    Some (Activation s a p (<[j:=st']> fus) (future_env st e) l') ∧
    finished st st'.
Proof.
  intros Hj. destruct st as [c|c|r|c]; simpl.
  - unfold worker_step at 1; simpl. rewrite list_lookup_insert_eq by done.
    rewrite list_insert_insert_eq, task_schedule_exec by done.
    eexists _, _. split; [done|done].
  - rewrite task_schedule_exec by done. eexists _, _. split; [done|done].
  - eexists _, _. split; [done|done].
  - eexists _, _. split; [done|done].
Qed.

Lemma join_schedule_exec s a p fus : ∀ pre e l,
  ∃ fus' l',
    exec (join_schedule (length pre) fus e)
      (Activation (etype:=asynch) s a p (pre ++ fus) e l) =
    Some (Activation s a p (pre ++ fus')
            (foldl (λ e' st, future_env st e') e fus) l') ∧
    Forall2 finished fus fus'.
Proof.
  induction fus as [|st fus IH]; intros pre e l; simpl.
  - exists [], l. split; [done|constructor].
  - rewrite exec_app.
    assert (length pre < length (pre ++ st :: fus)) as Hlt.
    { rewrite length_app. simpl. lia. }
    destruct (future_schedule_exec st (length pre) s a p
                (pre ++ st :: fus) e l Hlt) as (st' & l' & H & Hfin).
    rewrite list_insert_id in H by apply list_lookup_middle, eq_refl.
    rewrite H. simpl.
    replace (<[length pre:=st']> (pre ++ st :: fus))
      with ((pre ++ [st']) ++ fus).
    2:{ rewrite <- (Nat.add_0_r (length pre)), insert_app_r. simpl.
        by rewrite <- app_assoc. }
    destruct (IH (pre ++ [st']) (future_env st e) l')
      as (fus' & l'' & H' & Hfins).
    rewrite length_app in H'. simpl in H'.
    rewrite Nat.add_1_r in H'. rewrite H'.
    exists (st' :: fus'), l''. simpl. rewrite <- app_assoc.
    split; [done|by constructor].
Qed.

Lemma foldl_launched fs a : ∀ e,
  foldl (λ e' st, future_env st e') e
    (map (λ f : std_function, launched (f a)) fs) =
  each_in_turn fs a e.
Proof. induction fs as [|f fs IH]; intros e; simpl; [done|apply IH]. Qed.

Lemma finished_let_go fus fus' :
  Forall2 finished fus fus' → forallb lets_go fus' = true.
Proof.
  induction 1 as [|st st' fus fus' H _ IH]; [done|]. simpl.
  rewrite IH, andb_true_r.
  destruct st; simpl in H; subst; try done; by destruct st'.
Qed.

(** Tasks that all have a thread are all taken to their ends. *)
Lemma finished_ready fus fus' :
  Forall (λ st, lets_go st = false) fus → Forall2 finished fus fus' →
  forallb is_ready fus' = true.
Proof.
  intros Hall H. induction H as [|st st' fus fus' H _ IH]; [done|].
  inversion Hall as [|? ? H1 H2]; subst. simpl.
  rewrite IH, andb_true_r by done.
  destruct st; simpl in H, H1; done.
Qed.

Lemma dispatch_exec s a e l : ∀ todo (fn : nat) fus,
  drop fn (funcs s) = todo →
  exec (replicate (length todo) caller) (Activation s a (looping fn) fus e l) =
  Some (Activation s a (looping (fn + length todo))
          (fus ++ map (λ f : std_function, launched (f a)) todo) e l).
Proof.
  induction todo as [|f todo IH]; intros fn fus Hd; simpl.
  - by rewrite Nat.add_0_r, app_nil_r.
  - assert (funcs s !! fn = Some f) as Hl.
    { rewrite <- (Nat.add_0_r fn), <- lookup_drop, Hd. done. }
    unfold caller_step at 1; simpl. rewrite Hl.
    rewrite IH.
    + by rewrite <- app_assoc, Nat.add_succ_r.
    + rewrite (funcs_drop_S _ _ _ Hl) in Hd. by inversion Hd.
Qed.

Lemma asynch_finish_exec m :
  (∀ fn c, pc m ≠ calling fn c) →
  ∃ m', exec (asynch_finish m) m = Some m' ∧ exited m' = true.
Proof.
  destruct m as [s a p fus e l]; simpl. intros Hp.
  assert (∀ r fus', ∃ m',
    exec (join_schedule 0 fus' e) (Activation s a (leaving r) fus' e l)
      = Some m' ∧ exited m' = true) as Hjoin.
  { intros r fus'.
    destruct (join_schedule_exec s a (leaving r) fus' [] e l)
      as (fus'' & l' & H & Hfin).
    simpl in H. eexists. split; [exact H|].
    unfold exited; simpl. by eapply finished_let_go. }
  unfold asynch_finish; simpl. destruct p as [fn|fn c|r].
  - rewrite exec_app, (dispatch_exec s a e l _ fn fus eq_refl). simpl.
    unfold caller_step at 1; simpl.
    rewrite lookup_ge_None_2.
    2:{ rewrite length_drop.
        destruct (decide (fn ≤ length (funcs s))); lia. }
    apply Hjoin.
  - by destruct (Hp fn c).
  - apply Hjoin.
Qed.

(** From any state a schedule has led to, the emission can be left. *)
Lemma asynch_emit_can_finish sched s a e m :
  exec sched (enter s a e) = Some m →
  ∃ m', emit (sched ++ asynch_finish m) s a e = Some m'.
Proof.
  intros H.
  assert (asynch_inv s a m) as (_ & _ & Hpc & _).
  { eapply asynch_inv_exec; [apply asynch_inv_enter|exact H]. }
  destruct (asynch_finish_exec m) as (m' & H' & Hx).
  { intros fn c Hc. by rewrite Hc in Hpc. }
  exists m'. unfold emit. rewrite exec_app, H. simpl. by rewrite H', Hx.
Qed.

Lemma asynch_emit_total s a e :
  ∃ m, emit (asynch_schedule s a e) s a e = Some m.
Proof. apply (asynch_emit_can_finish [] s a e (enter s a e)). done. Qed.

(** The run in which [std::async] starts every task and the tasks run
    in turn: every future ends ready, and the environment is what calling
    the callbacks in turn leaves. *)
Lemma asynch_in_turn_run s a e :
  ∃ fus l',
    exec (asynch_schedule s a e) (enter s a e) =
    Some (Activation s a (leaving None) fus
            (each_in_turn (funcs s) a e) l') ∧
    forallb is_ready fus = true.
Proof.
  unfold asynch_schedule, asynch_finish, enter.
  cbn [pc this args futures env]. rewrite drop_0, exec_app.
  rewrite (dispatch_exec s a e [] (funcs s) 0 [] eq_refl).
  cbn [mbind option_bind exec step].
  unfold caller_step at 1. cbn [pc this args futures env log].
  rewrite lookup_ge_None_2 by done.
  destruct (join_schedule_exec s a (leaving None)
              (map (λ f : std_function, launched (f a)) (funcs s)) [] e [])
    as (fus' & l' & H & Hfin).
  rewrite foldl_launched in H. exists fus', l'. split; [exact H|].
  eapply finished_ready; [|exact Hfin].
  apply Forall_map, Forall_true. done.
Qed.

Lemma asynch_in_turn_emit s a e :
  ∃ m, emit (asynch_schedule s a e) s a e = Some m ∧
       forallb is_ready (futures m) = true ∧
       env m = each_in_turn (funcs s) a e.
Proof.
  destruct (asynch_in_turn_run s a e) as (fus & l' & H & Hr).
  eexists. unfold emit. rewrite H. unfold exited; simpl.
  rewrite (all_ready_let_go _ Hr). done.
Qed.

End asynch_join.

(** *** No emission runs for ever *)

Section asynch_ends.
Implicit Types (m : @activation Args Env Exn asynch).
Implicit Types (s : @signal Args Env Exn asynch).

Lemma st_next_wf st : Acc st_next st.
Proof.
  assert (∀ r, Acc (st_next (Env:=Env) (Exn:=Exn)) (ready r)) as Hready.
  { intros r. constructor. intros st' H. inversion H. }
  assert (∀ c, Acc st_next (running c)) as Hrun.
  { induction c as [|x|act rest IH]; constructor; intros st' H;
      inversion H; subst; auto. }
  destruct st as [c|c|r|c]; auto.
  - constructor. intros st' H. inversion H; subst; auto.
    constructor. intros st' H'. inversion H'.
  - constructor. intros st' H. inversion H.
Qed.

Lemma fus_next_cons st fus :
  Acc st_next st → Acc fus_next fus → Acc fus_next (st :: fus).
Proof.
  intros Hst. revert fus.
  induction Hst as [st _ IHst]. intros fus Hfus.
  pose proof Hfus as Hfus0.
  induction Hfus as [fus _ IHfus].
  constructor. intros fus' H. inversion H as [j st0 st' fus0 Hj Hn]; subst.
  destruct j as [|j]; simpl in *.
  - injection Hj as <-. apply IHst; [done|exact Hfus0].
  - assert (fus_next (<[j:=st']> fus) fus) as Hstep
      by (by apply (fus_next_at j st0)).
    apply IHfus; [exact Hstep|]. by apply (Acc_inv Hfus0).
Qed.

Lemma fus_next_wf fus : Acc fus_next fus.
Proof.
  induction fus as [|st fus IH].
  - constructor. intros fus' H. inversion H as [j st0 st' fus0 Hj Hn]; subst.
    by rewrite lookup_nil in Hj.
  - apply fus_next_cons; [apply st_next_wf|exact IH].
Qed.

(** A step of the caller leaves the tasks as they are and brings the
    caller nearer to its end; a step of a task moves one future on. *)
Lemma caller_step_todo s a m m' :
  asynch_inv s a m → caller_step on_thread m = Some m' →
  all_tasks m' = all_tasks m ∧ caller_todo m' < caller_todo m.
Proof.
  destruct m as [s0 a0 p fus e l].
  intros (Hs & Ha & Hpc & _); simpl in *; subst s0 a0.
  unfold caller_step, all_tasks, caller_todo; simpl.
  destruct p as [fn|fn c|r]; [|done..]. destruct Hpc as [-> Hle].
  destruct (funcs s !! length fus) as [f|] eqn:Hl; intros [= <-]; simpl.
  - apply lookup_lt_Some in Hl as Hlt. split; [|lia].
    rewrite length_app, (funcs_drop_S _ _ _ Hl), <- app_assoc. simpl.
    by rewrite Nat.add_1_r.
  - split; [done|lia].
Qed.

(** A call of [std::async] that defers its task settles one of the
    tasks the caller had to hand over. *)
Lemma deferring_step_tasks s a m m' :
  asynch_inv s a m → step caller_deferring m = Some m' →
  fus_next (all_tasks m') (all_tasks m).
Proof.
  intros (Hs & Ha & Hpc & _) H.
  apply deferring_step in H as (_ & fn & f & Hp & Hf & ->).
  rewrite Hp in Hpc. destruct Hpc as [-> _].
  unfold all_tasks; simpl.
  rewrite length_app, Nat.add_1_r, (funcs_drop_S _ _ _ Hf), <- app_assoc.
  simpl. set (rest := map _ (drop (S _) _)).
  assert (futures m ++ deferred (f (args m)) :: rest =
          <[length (futures m) := deferred (f (args m))]>
            (futures m ++ launched (f (args m)) :: rest)) as ->.
  { rewrite <- (Nat.add_0_r (length (futures m))), insert_app_r. done. }
  apply (fus_next_at _ (launched (f (args m)))); [|constructor].
  by apply list_lookup_middle.
Qed.

Lemma worker_step_tasks j m m' :
  worker_step j m = Some m' → fus_next (all_tasks m') (all_tasks m).
Proof.
  destruct m as [s a p fus e l]. unfold worker_step, all_tasks; simpl.
  destruct (fus !! j) as [st|] eqn:Hj; [|done].
  apply lookup_lt_Some in Hj as Hlt.
  assert (∀ st', st_next st' st →
    fus_next
      (<[j:=st']> fus ++
       map (λ f : std_function, launched (f a))
         (drop (length (<[j:=st']> fus)) (funcs s)))
      (fus ++ map (λ f : std_function, launched (f a))
                (drop (length fus) (funcs s)))) as Hmove.
  { intros st' Hn. rewrite length_insert, <- insert_app_l by done.
    apply (fus_next_at j st); [|done]. by apply lookup_app_l_Some. }
  destruct st as [c|[|x|act rest]|r|c]; intros [= <-]; simpl;
    apply Hmove; constructor.
Qed.

Lemma asynch_acc s a : ∀ v, Acc fus_next v → ∀ n m,
  asynch_inv s a m → all_tasks m = v → caller_todo m = n → Acc next m.
Proof.
  intros v Hv. induction Hv as [v _ IHv].
  intros n. induction (lt_wf n) as [n _ IHn].
  intros m Hinv Hm Hn. constructor. intros m' [[| |j] Hstep].
  - simpl in Hstep.
    destruct (caller_step_todo _ _ _ _ Hinv Hstep) as [Ht Hlt].
    apply (IHn (caller_todo m')); [lia| |congruence|done].
    eapply asynch_inv_caller; eauto.
  - apply (IHv (all_tasks m')) with (n := caller_todo m'); [| |done|done].
    + rewrite <- Hm. by eapply deferring_step_tasks.
    + by eapply asynch_inv_step.
  - simpl in Hstep.
    apply (IHv (all_tasks m')) with (n := caller_todo m'); [| |done|done].
    + rewrite <- Hm. by eapply worker_step_tasks.
    + eapply asynch_inv_worker; eauto.
Qed.

(** Whatever the schedule does, an [asynch] emission cannot go on for
    ever, and as long as it is not left some thread can move. *)
Lemma asynch_emit_ends s a e : Acc next (enter s a e).
Proof.
  eapply asynch_acc; [apply fus_next_wf|apply asynch_inv_enter|done..].
Qed.

Lemma asynch_progress s a m :
  asynch_inv s a m → exited m = false → ∃ m', next m' m.
Proof.
  intros (_ & _ & Hpc & _) Hx. unfold exited in Hx.
  destruct (pc m) as [fn|fn c|r] eqn:Hp; [|done|].
  - destruct (caller_step on_thread m) as [m'|] eqn:Hc.
    + exists m'. by exists caller.
    + unfold caller_step in Hc. rewrite Hp in Hc.
      by destruct (funcs (this m) !! fn).
  - assert (∃ j st, futures m !! j = Some st ∧ lets_go st = false)
      as (j & st & Hj & Hst).
    { clear Hpc Hp. induction (futures m) as [|st fus IH]; [done|].
      simpl in Hx. destruct (lets_go st) eqn:Hst.
      - destruct (IH Hx) as (j & st' & Hj & Hst'). by exists (S j), st'.
      - by exists 0, st. }
    assert (is_Some (worker_step j m)) as [m' Hm'].
    { unfold worker_step. rewrite Hj.
      destruct st as [c|[|x|act rest]|r'|c]; by eauto. }
    exists m'. by exists (worker j).
Qed.

End asynch_ends.

Section synch_ends.
Implicit Types (m : @activation Args Env Exn synch).
Implicit Types (s : @signal Args Env Exn synch).

Lemma synch_chain_acc (n : nat) : ∀ m m',
  futures m = [] →
  exec (replicate n caller) m = Some m' → caller_step on_thread m' = None →
  Acc next m.
Proof.
  induction n as [|n IH]; intros m m' Hf H Hend; simpl in H.
  - injection H as <-. constructor. intros m2 [t Hstep].
    destruct (synch_step_caller _ _ _ Hf Hstep) as [-> _].
    simpl in Hstep. congruence.
  - destruct (caller_step on_thread m) as [m1|] eqn:Hc; [|done].
    constructor. intros m2 [t Hstep].
    destruct (synch_step_caller _ _ _ Hf Hstep) as [-> Hf2].
    simpl in Hstep. rewrite Hc in Hstep. injection Hstep as <-.
    by apply (IH m1 m').
Qed.

(** A [synch] emission cannot go on for ever either. *)
Lemma synch_emit_ends s a e : Acc next (enter s a e).
Proof.
  destruct (loop_steps_exec s a (funcs s) 0 e [] eq_refl) as (m' & H & Hx).
  apply (synch_chain_acc _ (enter s a e) m' eq_refl H).
  unfold exited in Hx. unfold caller_step. by destruct (pc m').
Qed.

End synch_ends.


(** ** Callbacks that do not throw *)

Lemma nothrow_run c : nothrow c → ∀ e, ∃ e', run c e = Returned e'.
Proof.
  induction 1 as [|act rest H IH]; intros e; simpl; [by eexists|].
  apply IH.
Qed.

Lemma in_order_nothrow fs : ∀ (fn : nat) a e l,
  Forall (λ f, nothrow (f a)) fs →
  (in_order fn fs a e l).1 =
  Returned (foldl (λ e' f, env_of (run (f a) e')) e fs).
Proof.
  induction fs as [|f fs IH]; intros fn a e l H; simpl; [done|].
  apply Forall_cons in H as [Hf H].
  destruct (nothrow_run _ Hf e) as [e' He]. rewrite He. simpl.
  by apply IH.
Qed.

(** ** Emissions under either policy *)

Section synch_shape.
Implicit Types (m : @activation Args Env Exn synch).
Implicit Types (s : @signal Args Env Exn synch).

(** The log of a [synch] emission: all the callbacks one by one, or the
    callbacks one by one up to one that threw. *)
Lemma synch_emit_log sched s a e m :
  emit sched s a e = Some m →
  (∃ e', result m = Some (Returned e') ∧
         log m = one_by_one a 0 (length (funcs s))) ∨
  (∃ k x e', k < length (funcs s) ∧ result m = Some (Thrown x e') ∧
             log m = one_by_one a 0 k ++ [Invoke k a; Complete k (Some x)]).
Proof.
  intros H. apply synch_emit_in_order in H as (_ & _ & Hr & Hl).
  pose proof (in_order_log (funcs s) 0 a e []) as Hlog.
  destruct (in_order 0 (funcs s) a e []) as [[e'|x e'] l']; simpl in *.
  - left. exists e'. by rewrite Hl, Hlog.
  - right. destruct Hlog as (k & Hk & Hlog). exists k, x, e'.
    by rewrite Hl, Hlog.
Qed.

(** A [synch] emission ends in one state, whatever the schedule. *)
Lemma synch_emit_state sched s a e m :
  emit sched s a e = Some m →
  m = Activation s a (leaving (stored (in_order 0 (funcs s) a e []).1)) []
        (env_of (in_order 0 (funcs s) a e []).1)
        (in_order 0 (funcs s) a e []).2.
Proof.
  intros H. pose proof H as H'.
  apply synch_emit_in_order in H as (Hs & Hf & Hr & Hl).
  unfold emit in H'. destruct (exec sched (enter s a e)) as [m1|] eqn:E; [|done].
  destruct (exited m1) eqn:Hx; [|done]. injection H' as ->.
  destruct (exec_frame _ _ _ E) as [_ Ha]. simpl in Ha.
  destruct m as [s0 a0 p fus e0 l0]; simpl in *. subst.
  unfold result in Hr; simpl in Hr.
  destruct p as [fn|fn c|[x|]]; try done; injection Hr as <-; done.
Qed.

End synch_shape.

Section either_policy.
Context {etype : emit_type}.
Implicit Types (m : @activation Args Env Exn etype).
Implicit Types (s : @signal Args Env Exn etype).

Lemma emit_frame sched s a e m :
  emit sched s a e = Some m → this m = s ∧ args m = a.
Proof.
  unfold emit. destruct (exec sched (enter s a e)) as [m1|] eqn:E; [|done].
  destruct (exited m1); [|done]. intros [= ->].
  by apply exec_frame in E.
Qed.

(** There is a schedule for every emission. *)
Lemma emit_total s a e : ∃ sched m, emit sched s a e = Some m.
Proof.
  destruct etype.
  - destruct (synch_emit_total s a e) as [m H]. eauto.
  - destruct (asynch_emit_total s a e) as [m H]. eauto.
Qed.

(** No entry is invoked twice in one emission, none with another payload,
    none beyond the end of the vector; and an emission that returns and in
    which no task was deferred has invoked every entry. *)
Lemma emit_invocations sched s a e m :
  emit sched s a e = Some m →
  (∀ i, invocations i (log m) = [a] ∨ invocations i (log m) = []) ∧
  (∀ i, length (funcs s) ≤ i → invocations i (log m) = []) ∧
  (all_started m →
   ∀ i, i < length (funcs s) → invocations i (log m) = [a]).
Proof.
  intros H. destruct etype.
  - destruct (synch_emit_log _ _ _ _ _ H)
      as [(e' & Hr & Hl)|(k & x & e' & Hk & Hr & Hl)]; rewrite Hl.
    + repeat split; intros; rewrite invocations_one_by_one;
        destruct (decide _); auto; lia.
    + repeat split.
      * intros i. rewrite invocations_app, invocations_one_by_one. simpl.
        repeat destruct (decide _); auto; lia.
      * intros i Hi. rewrite invocations_app, invocations_one_by_one. simpl.
        repeat destruct (decide _); auto; lia.
      * intros [[e'' Hr'] _]. rewrite Hr in Hr'. done.
  - destruct (asynch_emit_joined _ _ _ _ _ H) as (Hs & Hpc & Hlen & Hall).
    apply asynch_emit_inv in H as [(_ & _ & _ & Hlog & _) _].
    repeat split.
    + intros i. specialize (Hlog i).
      destruct (futures m !! i) as [[c|c|r|c]|]; destruct Hlog; auto.
    + intros i Hi. specialize (Hlog i).
      rewrite lookup_ge_None_2 in Hlog by lia. by destruct Hlog.
    + intros [_ Hr] i Hi.
      destruct (lookup_lt_is_Some_2 (funcs s) i Hi) as [f Hf].
      destruct (Hall i f Hf) as [(r & _ & _ & Hinv & _)|(Hd & _)]; [done|].
      by destruct (all_ready_lookup _ _ _ Hr Hd).
Qed.

(** The futures an emission is left with: none under the [synch]
    policy, one for each callback under the [asynch] policy, each of them
    either ready, its callback invoked once with the payload and come to
    its end, or deferred, its callback not invoked. *)
Lemma emit_futures sched s a e m :
  emit sched s a e = Some m →
  (etype = synch → futures m = []) ∧
  (etype = asynch → length (futures m) = length (funcs s)) ∧
  (∀ i st, futures m !! i = Some st →
     ∃ f, funcs s !! i = Some f ∧ task_of (f a) st ∧
       ((∃ r, st = ready r ∧ invocations i (log m) = [a] ∧
              completions i (log m) = [r]) ∨
        (st = deferred (f a) ∧ invocations i (log m) = [] ∧
         completions i (log m) = []))).
Proof.
  intros H. destruct etype.
  - apply synch_emit_in_order in H as (_ & Hf & _). rewrite Hf.
    repeat split; done.
  - destruct (asynch_emit_joined _ _ _ _ _ H) as (Hs & Hpc & Hlen & Hall).
    split; [done|]. split; [done|]. intros i st Hst.
    apply lookup_lt_Some in Hst as Hlt.
    destruct (lookup_lt_is_Some_2 (funcs s) i) as [f Hf]; [lia|].
    exists f. split; [done|].
    destruct (Hall i f Hf) as [(r & Hr & Ht & H1 & H2)|(Hd & H1 & H2)].
    + rewrite Hst in Hr. injection Hr as ->. split; [done|]. left. eauto.
    + rewrite Hst in Hd. injection Hd as ->. split; [done|]. by right.
Qed.

(** The run in which the callbacks are called in turn: under the
    [asynch] policy it is there whatever the callbacks do, under the
    [synch] policy when no callback throws. *)
Lemma in_turn_emit s a e :
  etype = asynch ∨ Forall (λ f, nothrow (f a)) (funcs s) →
  ∃ m, emit (in_turn_schedule s a e) s a e = Some m ∧ all_started m ∧
       env m = each_in_turn (funcs s) a e.
Proof.
  intros Hn. destruct etype.
  - destruct Hn as [|Hn]; [done|].
    destruct (synch_emit_total s a e) as [m H]. exists m. split; [done|].
    apply synch_emit_state in H.
    rewrite (in_order_nothrow _ 0 a e [] Hn) in H. subst m.
    split; [|done]. split; [by eexists|done].
  - destruct (asynch_in_turn_emit s a e) as (m & H & Hr & He).
    exists m. split; [done|]. split; [|done]. split; [|done].
    destruct (asynch_emit_joined _ _ _ _ _ H) as (_ & Hpc & _).
    unfold result. rewrite Hpc. by eexists.
Qed.

(** A call returns to the emitter unless the policy is [synch] and a
    callback threw. *)
Lemma emit_returns sched s a e m :
  emit sched s a e = Some m →
  etype = asynch ∨ (∀ k x, Complete k (Some x) ∉ log m) →
  ∃ e1, result m = Some (Returned e1).
Proof.
  intros H Hno. destruct etype.
  - destruct Hno as [|Hno]; [done|].
    destruct (synch_emit_log _ _ _ _ _ H)
      as [(e' & Hr & Hl)|(k & x & e' & Hk & Hr & Hl)]; [by eauto|].
    destruct (Hno k x). rewrite Hl.
    apply elem_of_app. right.
    apply list_elem_of_further, list_elem_of_here.
  - destruct (asynch_emit_joined _ _ _ _ _ H) as (_ & Hpc & _).
    unfold result. rewrite Hpc. eauto.
Qed.

End either_policy.

(** ** Claims *)

(** C1.  Under the [synch] policy every [emit] call has a run, no run
    goes on for ever, and every run invokes the callbacks in the order of their connection, each with
    the payload and each to its end before the next is invoked: the caller
    gets what calling them in sequence gives, and the log is H1 invoked,
    H1 completed, H2 invoked, H2 completed, and so on to Hn (or to the
    first callback that throws, which ends the call).  When no callback
    throws, the environment left behind is the one obtained by running H1,
    then H2, ..., then Hn on it. *)
Theorem synch_emit_connection_order (s : @signal Args Env Exn synch) a e :
  (∃ m, emit (synch_schedule s a e) s a e = Some m) ∧
  Acc next (enter s a e) ∧
  (∀ sched m, emit sched s a e = Some m →
     result m = Some (in_order 0 (funcs s) a e []).1 ∧
     ((∃ e', result m = Some (Returned e') ∧
             log m = one_by_one a 0 (length (funcs s))) ∨
      (∃ k x e', k < length (funcs s) ∧ result m = Some (Thrown x e') ∧
                 log m = one_by_one a 0 k ++
                         [Invoke k a; Complete k (Some x)])) ∧
     (Forall (λ f, nothrow (f a)) (funcs s) →
      result m =
        Some (Returned (foldl (λ e' f, env_of (run (f a) e')) e (funcs s))) ∧
      log m = one_by_one a 0 (length (funcs s)))).
Proof.
  split; [apply synch_emit_total|]. split; [apply synch_emit_ends|].
  intros sched m H.
  pose proof (synch_emit_log _ _ _ _ _ H) as Hlog.
  pose proof (synch_emit_in_order _ _ _ _ _ H) as (_ & _ & Hr & _).
  split; [done|]. split; [done|].
  intros Hn. rewrite (in_order_nothrow _ 0 a e [] Hn) in Hr.
  split; [done|].
  destruct Hlog as [(e' & _ & Hl)|(k & x & e' & _ & Hr' & _)]; [done|].
  rewrite Hr in Hr'. done.
Qed.

Section calls_on_a_signal.
Context {etype : emit_type}.
Implicit Types (m : @activation Args Env Exn etype).
Implicit Types (s : @signal Args Env Exn etype).
Implicit Types (ms : list (@activation Args Env Exn etype)).
Implicit Types (cs : list (@call Args Env Exn)).

Lemma perform_funcs cs : ∀ s e s' e' ms,
  perform cs s e = Some (s', e', ms) → funcs s' = funcs s ++ connected cs.
Proof.
  induction cs as [|[fn|sched a] cs IH]; intros s e s' e' ms H; simpl in *.
  - injection H as <- _ _. by rewrite app_nil_r.
  - apply IH in H. rewrite H. simpl. by rewrite <- app_assoc.
  - destruct (emit sched s a e) as [m|] eqn:E; [|done].
    destruct (perform cs (this m) (env m)) as [[[s1 e1] ms1]|] eqn:P; [|done].
    injection H as <- _ _. apply IH in P.
    apply emit_frame in E as [Hs _]. by rewrite Hs in P.
Qed.

(** Every emission of a program is a call of [emit] on the signal as it
    is then, which holds at least the callbacks the signal started with,
    at their positions. *)
Lemma perform_emissions cs : ∀ s e s' e' ms,
  perform cs s e = Some (s', e', ms) →
  Forall (λ m, (∃ later, funcs (this m) = funcs s ++ later) ∧
               ∃ sched e0, emit sched (this m) (args m) e0 = Some m) ms.
Proof.
  induction cs as [|[fn|sched a] cs IH]; intros s e s' e' ms H; simpl in *.
  - injection H as _ _ <-. done.
  - apply IH in H. eapply Forall_impl; [exact H|].
    intros m [[later Hl] He]; simpl in *. split; [|done].
    exists (fn :: later). by rewrite Hl, <- app_assoc.
  - destruct (emit sched s a e) as [m|] eqn:E; [|done].
    destruct (perform cs (this m) (env m)) as [[[s1 e1] ms1]|] eqn:P; [|done].
    injection H as _ _ <-.
    destruct (emit_frame _ _ _ _ _ E) as [Hs Ha].
    apply Forall_cons. split.
    + split; [exists []; by rewrite Hs, app_nil_r|].
      exists sched, e. by rewrite Hs, Ha.
    + rewrite Hs in P. by apply IH in P.
Qed.

(** What every run of K [emit] calls satisfies. *)
Lemma perform_fan_out cs : ∀ s e s' e' ms,
  connected cs = [] →
  perform cs s e = Some (s', e', ms) →
  funcs s' = funcs s ∧
  length ms = length (emitted cs) ∧
  Forall2 (λ a m,
             (∀ i, invocations i (log m) = [a] ∨ invocations i (log m) = []) ∧
             (all_started m →
              ∀ i, i < length (funcs s) → invocations i (log m) = [a]) ∧
             (etype = asynch → length (futures m) = length (funcs s)) ∧
             (∀ i st, futures m !! i = Some st →
                ∃ f, funcs s !! i = Some f ∧ task_of (f a) st ∧
                  ((∃ r, st = ready r ∧ invocations i (log m) = [a] ∧
                         completions i (log m) = [r]) ∨
                   (st = deferred (f a) ∧ invocations i (log m) = [] ∧
                    completions i (log m) = []))))
    (emitted cs) ms ∧
  (∀ i, deliveries i ms `sublist_of` emitted cs) ∧
  (∀ i, length (funcs s) ≤ i → deliveries i ms = []) ∧
  Forall (λ m, etype = asynch ∨ (∀ k x, Complete k (Some x) ∉ log m) →
               ∃ e1, result m = Some (Returned e1)) ms ∧
  (Forall all_started ms →
   ∀ i, i < length (funcs s) → deliveries i ms = emitted cs).
Proof.
  induction cs as [|[fn|sched a] cs IH]; intros s e s' e' ms Hc H;
    simpl in *; [|done|].
  - injection H as <- _ <-. repeat split; done.
  - destruct (emit sched s a e) as [m|] eqn:E; [|done].
    destruct (perform cs (this m) (env m)) as [[[s1 e1] ms1]|] eqn:P; [|done].
    injection H as <- _ <-.
    destruct (emit_frame _ _ _ _ _ E) as [Hs _]. rewrite Hs in P.
    destruct (IH _ _ _ _ _ Hc P) as (H1 & H2 & H3 & H4 & H5 & H6 & H7).
    destruct (emit_invocations _ _ _ _ _ E) as (I1 & I2 & I3).
    destruct (emit_futures _ _ _ _ _ E) as (_ & F2 & F3).
    split; [done|]. split; [simpl; by rewrite H2|].
    split; [|split; [|split; [|split]]].
    + apply Forall2_cons. split; [|done]. done.
    + intros i. unfold deliveries; simpl.
      destruct (I1 i) as [->| ->]; simpl.
      * apply sublist_skip, H4.
      * apply sublist_cons, H4.
    + intros i Hi. unfold deliveries; simpl. rewrite (I2 i Hi). simpl.
      by apply H5.
    + apply Forall_cons. split; [|done]. by apply (emit_returns _ _ _ _ _ E).
    + intros Hall i Hi. apply Forall_cons in Hall as [Hm Hall].
      unfold deliveries; simpl. rewrite (I3 Hm i Hi). simpl.
      f_equal. by apply H7.
Qed.

(** K [emit] calls in each of which the callbacks run in turn: every
    call invokes every callback, and the environment is what calling them
    in turn, call after call, leaves. *)
Lemma emit_each_perform (pl : list Args) : ∀ s e,
  etype = asynch ∨ Forall (λ a, Forall (λ f, nothrow (f a)) (funcs s)) pl →
  ∃ ms,
    perform (emit_each s pl e) s e =
      Some (s, foldl (λ e1 a, each_in_turn (funcs s) a e1) e pl, ms) ∧
    Forall all_started ms ∧
    ∀ i, i < length (funcs s) → deliveries i ms = pl.
Proof.
  induction pl as [|a pl IH]; intros s e Hn.
  - exists []. done.
  - destruct (in_turn_emit s a e) as (m & Hm & Hall & Henv).
    { destruct Hn as [?|Hn]; [by left|right]. by inversion Hn. }
    destruct (IH s (each_in_turn (funcs s) a e)) as (ms & Hp & Halls & Hd).
    { destruct Hn as [?|Hn]; [by left|right]. by inversion Hn. }
    destruct (emit_frame _ _ _ _ _ Hm) as [Hs _].
    exists (m :: ms). cbn [emit_each perform foldl]. rewrite Hm, Hs, Henv, Hp.
    split; [done|]. split; [by constructor|].
    intros i Hi. unfold deliveries; simpl.
    destruct (emit_invocations _ _ _ _ _ Hm) as (_ & _ & I3).
    rewrite (I3 Hall i Hi). simpl. f_equal. by apply Hd.
Qed.




(** C4.  With no callback connected, under either policy, the one run of
    [emit] is the failing loop test: nothing is invoked, no future is made,
    the environment and the signal are as before, and the caller gets a
    normal return. *)
Theorem emit_no_handlers a e :
  emit [caller] (Signal []) a e =
    Some (Activation (Signal [] : @signal Args Env Exn etype) a
            (leaving None) [] e []) ∧
  (∀ sched m, emit sched (Signal []) a e = Some m →
     sched = [caller] ∧ this m = Signal [] ∧
     result m = Some (Returned e) ∧ log m = [] ∧ futures m = []).
Proof.
  split; [done|]. intros sched m.
  destruct sched as [|[| |j] [|t sched]]; unfold emit; simpl; try done.
  - intros [= <-]. done.
  - destruct t; done.
  - by destruct etype.
  - by destruct etype.
Qed.


(** C10.  No step of an emission writes to the signal: at every point of
    a call of [emit], and so when the call is left, by a normal return or by
    an exception of a callback, the vector of callbacks is the one the call
    started with.  (Callbacks act on the environment they captured; one that
    connects to, or emits, the signal it is called from is outside the
    model.) *)
Theorem emit_leaves_handlers sched s a e m :
  exec sched (enter s a e) = Some m →
  this m = s ∧ funcs (this m) = funcs s ∧
  (exited m = true → emit sched s a e = Some m).
Proof.
  intros H. destruct (exec_frame _ _ _ H) as [Hs _]. simpl in Hs.
  split; [done|]. split; [by rewrite Hs|].
  intros Hx. unfold emit. by rewrite H, Hx.
Qed.

Lemma connect_all_funcs (fns : list (@std_function Args Env Exn)) : ∀ s,
  funcs (connect_all fns s) = funcs s ++ fns.
Proof.
  induction fns as [|fn fns IH]; intros s; simpl.
  - by rewrite app_nil_r.
  - unfold connect_all in *. simpl. rewrite IH. simpl. by rewrite <- app_assoc.
Qed.



End calls_on_a_signal.

(** ** Claims on one policy *)

Lemma elem_of_completions k (r : option Exn) l :
  Complete k r ∈ l → r ∈ completions k l.
Proof.
  induction l as [|[j a|j r'] l IH]; intros H.
  - by apply elem_of_nil in H.
  - apply elem_of_cons in H as [H|H]; [done|]. simpl. by apply IH.
  - simpl. apply elem_of_cons in H as [H|H].
    + injection H as <- <-. destruct (decide (k = k)); [|done].
      apply list_elem_of_here.
    + destruct (decide (j = k)); [apply list_elem_of_further|]; by apply IH.
Qed.

Lemma unready_not_exited {etype} (m : @activation Args Env Exn etype) j st :
  futures m !! j = Some st → lets_go st = false → exited m = false.
Proof.
  intros Hj Hst. unfold exited. destruct (pc m); try done.
  destruct (forallb lets_go (futures m)) eqn:H; [|done].
  destruct (all_let_go_lookup _ _ _ H Hj) as [[r' ->]|[c ->]]; done.
Qed.



(** C7, as the code has it.  Under the [asynch] policy, when the log of
    an [emit] call shows that entry [k] ended by throwing [x]: the call
    returns normally to the emitter, and the exception stays in the future
    of entry [k], which is destroyed when [emit] is left: nothing tells the
    emitter.  Every other callback of the call that was dispatched to a
    thread was still invoked with the payload and came to its end (one that
    cannot throw, to a normal end); the others are those whose task
    [std::async] deferred, which were not invoked.  At no point of the
    call does what another task did keep a task that has a thread from
    taking its next step, and from every state the call can be taken to
    its end. *)
Theorem asynch_emit_failure_isolated (s : @signal Args Env Exn asynch)
    sched a e m k x :
  emit sched s a e = Some m →
  Complete k (Some x) ∈ log m →
  result m = Some (Returned (env m)) ∧
  futures m !! k = Some (ready (Some x)) ∧
  (∀ i f, funcs s !! i = Some f →
     (∃ r, futures m !! i = Some (ready r) ∧ task_of (f a) (ready r) ∧
           invocations i (log m) = [a] ∧ completions i (log m) = [r] ∧
           (nothrow (f a) → r = None)) ∨
     (futures m !! i = Some (deferred (f a)) ∧
      invocations i (log m) = [] ∧ completions i (log m) = [])) ∧
  (∀ sched' m' j st,
     exec sched' (enter s a e) = Some m' →
     futures m' !! j = Some st → lets_go st = false →
     is_Some (step (worker j) m') ∧
     ∃ m'', emit (sched' ++ asynch_finish m') s a e = Some m'').
Proof.
  intros H Hin.
  destruct (asynch_emit_joined _ _ _ _ _ H) as (Hs & Hpc & Hlen & Hall).
  split; [unfold result; by rewrite Hpc|]. split; [|split].
  - apply elem_of_completions in Hin.
    apply asynch_emit_inv in H as [(_ & _ & _ & Hlog & _) Hx].
    specialize (Hlog k). unfold exited in Hx. rewrite Hpc in Hx.
    destruct (futures m !! k) as [st|] eqn:Hk.
    + destruct (all_let_go_lookup _ _ _ Hx Hk) as [[r ->]|[c ->]].
      * destruct Hlog as [_ Hc]. rewrite Hc in Hin.
        apply list_elem_of_singleton in Hin. by subst.
      * destruct Hlog as [_ Hc]. rewrite Hc in Hin.
        by apply elem_of_nil in Hin.
    + destruct Hlog as [_ Hc]. rewrite Hc in Hin. by apply elem_of_nil in Hin.
  - intros i f Hf.
    destruct (Hall i f Hf) as [(r & H1 & H2 & H3 & H4)|Hd]; [left|by right].
    exists r. repeat split; try done.
    intros Hn. destruct r as [x'|]; [|done]. simpl in H2.
    pose proof (nothrow_residual _ _ Hn H2) as Hbad. inversion Hbad.
  - intros sched' m' j st H' Hj Hst. split.
    + simpl. unfold worker_step. rewrite Hj.
      destruct st as [c|[|x'|act rest]|r|c]; by eauto.
    + by apply asynch_emit_can_finish.
Qed.


End facts.

(** * The scenario, and the properties at work *)

Local Open Scope Z_scope.

(** C8.  The scenario: a [synch] signal of one [int], two callbacks that
    each append the integer they get to a shared log under their tag, ["A"]
    connected first.  [emit(7)] on the empty log has a run, and every run
    leaves the log [("A",7); ("B",7)], with ["A"] called and completed
    before ["B"] is called.  From any initial log, any two runs end in the
    same state. *)
Theorem scenario_log :
  (∃ m, emit (synch_schedule (scenario synch) 7 []) (scenario synch) 7 []
        = Some m) ∧
  (∀ sched m, emit sched (scenario synch) 7 [] = Some m →
     result m = Some (Returned [("A", 7); ("B", 7)]) ∧
     log m = [Invoke 0%nat 7; Complete 0%nat None;
              Invoke 1%nat 7; Complete 1%nat None]) ∧
  (∀ e0 sched1 sched2 m1 m2,
     emit sched1 (scenario synch) 7 e0 = Some m1 →
     emit sched2 (scenario synch) 7 e0 = Some m2 →
     m1 = m2 ∧ env m1 = e0 ++ [("A", 7); ("B", 7)]).
Proof.
  split; [apply synch_emit_total|]. split.
  - intros sched m H. apply synch_emit_state in H. by subst m.
  - intros e0 sched1 sched2 m1 m2 H1 H2.
    apply synch_emit_state in H1, H2. subst m1 m2. split; [done|].
    simpl. by rewrite <- app_assoc.
Qed.

Example scenario_run :
  env <$> emit (synch_schedule (scenario synch) 7 []) (scenario synch) 7 []
  = Some [("A", 7); ("B", 7)].
Proof. reflexivity. Qed.

(** Under the [asynch] policy two tasks can take turns, and the tasks can
    finish in either order. *)
Example writers_taking_turns :
  env <$> emit taking_turns (writers asynch) 7 []
  = Some [("A", 7); ("B", 7); ("A", 7); ("B", 7)].
Proof. reflexivity. Qed.

Example writers_one_by_one :
  env <$> emit (asynch_schedule (writers asynch) 7 []) (writers asynch) 7 []
  = Some [("A", 7); ("A", 7); ("B", 7); ("B", 7)].
Proof. reflexivity. Qed.

Example scenario_second_first :
  env <$> emit [caller; caller; caller; worker 1; worker 1; worker 1;
                worker 0; worker 0; worker 0] (scenario asynch) 7 []
  = Some [("B", 7); ("A", 7)].
Proof. reflexivity. Qed.

(** The claims with hypotheses, each on runs of the model. *)







Lemma asynch_emit_failure_isolated_witness :
  (∃ m,
     emit (asynch_schedule (faulty asynch) 7 []) (faulty asynch) 7 []
       = Some m ∧
     Complete 1 (Some "boom") ∈ log m ∧
     result m = Some (Returned [("A", 7); ("B", 7)]) ∧
     futures m = [ready None; ready (Some "boom"); ready None]) ∧
  (∃ m,
     emit faulty_last_deferred (faulty asynch) 7 [] = Some m ∧
     Complete 1 (Some "boom") ∈ log m ∧
     result m = Some (Returned [("A", 7)]) ∧
     futures m !! 1%nat = Some (ready (Some "boom")) ∧
     futures m !! 2%nat = Some (deferred (tagger "B" 7))).
Proof.
  split.
  - exists_run
      (emit (asynch_schedule (faulty asynch) 7 []) (faulty asynch) 7 []).
    match goal with |- ?P ∧ _ => assert P as Hp by run_model end.
    match goal with |- _ ∧ ?P ∧ _ => assert P as Hin
      by (repeat first [apply list_elem_of_here | apply list_elem_of_further])
    end.
    split; [exact Hp|]. split; [exact Hin|].
    destruct (asynch_emit_failure_isolated _ _ _ _ _ _ _ Hp Hin)
      as (Hr & _ & _).
    split; [exact Hr|reflexivity].
  - exists_run (emit faulty_last_deferred (faulty asynch) 7 []).
    match goal with |- ?P ∧ _ => assert P as Hp by run_model end.
    match goal with |- _ ∧ ?P ∧ _ => assert P as Hin
      by (repeat first [apply list_elem_of_here | apply list_elem_of_further])
    end.
    split; [exact Hp|]. split; [exact Hin|].
    destruct (asynch_emit_failure_isolated _ _ _ _ _ _ _ Hp Hin)
      as (Hr & Hk & _).
    split; [exact Hr|]. split; [exact Hk|reflexivity].
Defined.

(** C7, as it is stated, fails on the code: here the second callback
    throws, the other two run to their ends, and the emitter gets a normal
    return; what was thrown is in no state the emitter can see.  And no run
    of this emission ends otherwise. *)
Lemma asynch_emit_failure_dropped :
  (∃ m,
     emit (asynch_schedule (faulty asynch) 7 []) (faulty asynch) 7 [] = Some m ∧
     log m = [Invoke 0%nat 7; Complete 0%nat None;
              Invoke 1%nat 7; Complete 1%nat (Some "boom");
              Invoke 2%nat 7; Complete 2%nat None] ∧
     result m = Some (Returned [("A", 7); ("B", 7)])) ∧
  (∀ sched m x e',
     emit sched (faulty asynch) 7 [] = Some m →
     result m ≠ Some (Thrown x e')).
Proof.
  split.
  - exists_run
      (emit (asynch_schedule (faulty asynch) 7 []) (faulty asynch) 7 []).
    split; [run_model|]. split; reflexivity.
  - intros sched m x e' H.
    destruct (asynch_emit_joined _ _ _ _ _ H) as (_ & Hpc & _).
    unfold result. by rewrite Hpc.
Qed.



Lemma emit_leaves_handlers_witness :
  ∃ m,
    exec (synch_schedule (faulty synch) 7 []) (enter (faulty synch) 7 [])
      = Some m ∧
    result m = Some (Thrown "boom" [("A", 7)]) ∧
    funcs (this m) = [tagger "A"; thrower "boom"; tagger "B"].
Proof.
  exists_run
    (exec (synch_schedule (faulty synch) 7 []) (enter (faulty synch) 7 [])).
  match goal with |- ?P ∧ _ => assert P as Hp by run_model end.
  split; [exact Hp|]. split; [reflexivity|].
  destruct (emit_leaves_handlers _ _ _ _ _ Hp) as (_ & H & _).
  exact H.
Defined.

(** * More of the code *)

Local Close Scope Z_scope.

Section more_facts.
Context {Args Env Exn : Type}.
Implicit Types (a : Args) (e : Env) (x : Exn) (c : @code Env Exn).
Implicit Types (f fn : @std_function Args Env Exn).
Implicit Types (fs fns : list (@std_function Args Env Exn)).
Implicit Types (l : list (@event Args Exn)) (o : @outcome Env Exn).
Implicit Types (st : @shared_state Env Exn) (sched : schedule).
Implicit Types (fus : list (@shared_state Env Exn)).

(** ** Emissions compose *)

Lemma in_order_app fs1 : ∀ fs2 (n : nat) a e l,
  in_order n (fs1 ++ fs2) a e l =
  match in_order n fs1 a e l with
  | (Returned e', l') => in_order (n + length fs1) fs2 a e' l'
  | (Thrown x e', l') => (Thrown x e', l')
  end.
Proof.
  induction fs1 as [|f fs1 IH]; intros fs2 n a e l; simpl.
  - by rewrite Nat.add_0_r.
  - destruct (run (f a) e) as [e'|x e']; [|done].
    rewrite IH. by rewrite Nat.add_succ_r.
Qed.

Lemma emit_synch_run (s : @signal Args Env Exn synch) sched a e m :
  emit sched s a e = Some m → result m = Some (emit_synch s a e).
Proof. intros H. by apply synch_emit_in_order in H as (_ & _ & Hr & _). Qed.

(** X1.  A [synch] emission on a signal to which more callbacks have been
    connected is the emission on the signal as it was, followed, if that one
    returns, by the calls of the new callbacks in their order on the
    environment it leaves; if the old emission ends with an exception, the
    new one ends with the same exception, the same environment and the same
    log, and none of the new callbacks is invoked. *)
Theorem synch_emit_after_connect (s : @signal Args Env Exn synch) fns
    sched sched' a e m m' :
  emit sched s a e = Some m →
  emit sched' (connect_all fns s) a e = Some m' →
  match result m with
  | Some (Returned e1) =>
      result m' = Some (in_order (length (funcs s)) fns a e1 (log m)).1 ∧
      log m' = (in_order (length (funcs s)) fns a e1 (log m)).2
  | Some (Thrown x e1) =>
      result m' = Some (Thrown x e1) ∧ log m' = log m ∧ env m' = env m
  | None => False
  end.
Proof.
  intros H H'.
  apply synch_emit_state in H, H'. subst m m'.
  rewrite connect_all_funcs, in_order_app. simpl.
  unfold result; simpl.
  destruct (in_order 0 (funcs s) a e []) as [[e1|x e1] l1]; simpl; [|done].
  destruct (in_order (length (funcs s)) fns a e1 l1) as [[e2|x e2] l2]; done.
Qed.

(** ** The run of an [asynch] emission that takes the tasks in turn *)

(** X2.  An [asynch] emission can go the way of a [synch] one: in the run
    in which the caller first hands over every callback and the tasks then
    run one after the other in the order of their futures, the environment
    left behind is that of calling the callbacks in connection order, each
    on what the one before left.  A callback that throws does not keep the
    later ones from running.  So when no callback throws, this run leaves
    the environment that every [synch] emission of the same callbacks
    leaves. *)
Theorem asynch_emit_in_turn (s : @signal Args Env Exn asynch) a e :
  ∃ m,
    emit (asynch_schedule s a e) s a e = Some m ∧
    env m = foldl (λ e' f, env_of (run (f a) e')) e (funcs s) ∧
    (∀ (s' : @signal Args Env Exn synch) sched m',
       funcs s' = funcs s →
       Forall (λ f, nothrow (f a)) (funcs s) →
       emit sched s' a e = Some m' → env m' = env m).
Proof.
  destruct (asynch_in_turn_emit s a e) as (m & H & _ & He).
  exists m. split; [done|]. split; [done|].
  intros s' sched m' Hf Hn Hm'.
  apply synch_emit_state in Hm'. subst m'. simpl.
  rewrite Hf, (in_order_nothrow _ 0 a e [] Hn), He. done.
Qed.


(** ** Callbacks of one atomic action are serialized *)

Lemma one_action_residual c0 act rest :
  one_action c0 → residual c0 (Step act rest) → c0 = Step act rest.
Proof.
  intros H1 Hr. inversion Hr as [|act' rest' e' c' Hr']; subst; [done|].
  simpl in H1. specialize (H1 e'). destruct (rest' e'); inversion Hr'; done.
Qed.

Lemma one_action_effect c e :
  one_action c → acted (running c) = true → env_of (run c e) = e.
Proof. by destruct c. Qed.

Lemma serial_inv_keep s a e0 (p p' : @control Env Exn) j st st' fus fus' e l l' :
  fus !! j = Some st → acted st' = acted st →
  (∀ i, i ≠ j → fus' !! i = fus !! i) → fus' !! j = Some st' →
  serial_inv s a e0 (Activation s a p fus e l) →
  serial_inv s a e0 (Activation s a p' fus' e l').
Proof.
  intros Hj Hact Hne Hj' (order & Hnd & Henv & Hin). exists order.
  split; [done|]. split; [done|]. intros i. rewrite Hin. simpl.
  destruct (decide (i = j)) as [->|Hi].
  - rewrite Hj, Hj'. split; intros (st0 & [= <-] & H0); eexists; split;
      try done; congruence.
  - by rewrite (Hne i Hi).
Qed.

Lemma serial_inv_act s a e0 (p : @control Env Exn) j st st' fus e e' l l' :
  fus !! j = Some st → acted st = false → acted st' = true →
  e' = effect (funcs s) a j e →
  serial_inv s a e0 (Activation s a p fus e l) →
  serial_inv s a e0 (Activation s a p (<[j:=st']> fus) e' l').
Proof.
  intros Hj Hno Hyes He' (order & Hnd & Henv & Hin); simpl in *.
  apply lookup_lt_Some in Hj as Hlt.
  exists (order ++ [j]). split; [|split].
  - apply NoDup_app. split; [done|]. split; [|apply NoDup_singleton].
    intros i Hi ->%list_elem_of_singleton.
    apply Hin in Hi as (st0 & Hst0 & Hact). congruence.
  - simpl. by rewrite foldl_app, <- Henv.
  - intros i. simpl. rewrite elem_of_app, list_elem_of_singleton, Hin.
    destruct (decide (i = j)) as [->|Hi].
    + rewrite list_lookup_insert_eq by done. split; [|by auto].
      intros _. by exists st'.
    + rewrite list_lookup_insert_ne by done. split; [|by auto].
      by intros [H| ->].
Qed.

Lemma serial_inv_step s a e0 t m m' :
  Forall (λ f, one_action (f a)) (funcs s) →
  asynch_inv s a m → serial_inv s a e0 m →
  step t m = Some m' → serial_inv s a e0 m'.
Proof.
  intros Hone Hinv Hser Hstep.
  destruct m as [s0 a0 p fus e l].
  destruct Hinv as (Hs & Ha & Hpc & _ & Htask); simpl in *; subst s0 a0.
  apply step_cases in Hstep as [[how Hstep]|[j Hstep]].
  - unfold caller_step in Hstep; simpl in Hstep.
    destruct p as [fn|fn c|r]; [|done..].
    destruct (funcs s !! fn) as [f|]; injection Hstep as <-.
    + destruct Hser as (order & Hnd & Henv & Hin). exists order.
      split; [done|]. split; [done|]. intros i. rewrite Hin. simpl.
      split; intros (st & Hst & Hact).
      * exists st. split; [by apply lookup_app_l_Some|done].
      * apply lookup_app_Some in Hst as [Hst|[_ Hst]]; [by eauto|].
        destruct (i - length fus) as [|k]; simpl in Hst; [|done].
        injection Hst as <-. by destruct how.
    + destruct Hser as (order & Hnd & Henv & Hin). by exists order.
  - unfold worker_step in Hstep; simpl in Hstep.
    destruct (fus !! j) as [st|] eqn:Hj; [|done].
    apply lookup_lt_Some in Hj as Hlt.
    destruct (Htask j st Hj) as (f & Hf & Hst).
    assert (one_action (f a)) as Hfa.
    { rewrite Forall_forall in Hone. apply Hone.
      by apply list_elem_of_lookup_2 in Hf. }
    assert (effect (funcs s) a j e = env_of (run (f a) e)) as Heff
      by (unfold effect; by rewrite Hf).
    destruct st as [c|[|x|act rest]|r|c]; try done;
      injection Hstep as <-; simpl in Hst.
    + subst c. destruct (acted (running (f a))) eqn:Hact.
      * eapply serial_inv_act; [exact Hj|done|exact Hact| |exact Hser].
        by rewrite Heff, one_action_effect.
      * eapply (serial_inv_keep _ _ _ _ _ j _ (running (f a)));
          [exact Hj|exact Hact| | |exact Hser].
        -- intros i Hi. by rewrite list_lookup_insert_ne.
        -- by rewrite list_lookup_insert_eq.
    + eapply (serial_inv_keep _ _ _ _ _ j _ (ready None));
        [exact Hj|done| | |exact Hser].
      * intros i Hi. by rewrite list_lookup_insert_ne.
      * by rewrite list_lookup_insert_eq.
    + eapply (serial_inv_keep _ _ _ _ _ j _ (ready (Some x)));
        [exact Hj|done| | |exact Hser].
      * intros i Hi. by rewrite list_lookup_insert_ne.
      * by rewrite list_lookup_insert_eq.
    + pose proof (one_action_residual _ _ _ Hfa Hst) as Hc.
      rewrite Hc in Hfa, Heff. simpl in Hfa, Heff. specialize (Hfa e).
      eapply serial_inv_act; [exact Hj|done| | |exact Hser].
      * by destruct (rest e).
      * rewrite Heff. by destruct (rest e).
Qed.

Lemma serial_inv_exec s a e0 sched m m' :
  Forall (λ f, one_action (f a)) (funcs s) →
  asynch_inv s a m → serial_inv s a e0 m →
  exec sched m = Some m' → serial_inv s a e0 m'.
Proof.
  intros Hone Hinv Hser H.
  cut (asynch_inv s a m' ∧ serial_inv s a e0 m'); [by intros [_ ?]|].
  refine (exec_ind_r (λ m1, asynch_inv s a m1 ∧ serial_inv s a e0 m1)
            m (conj Hinv Hser) _ sched m' H).
  intros t m1 m2 [H1 H2] Hs. split.
  - by eapply asynch_inv_step.
  - eapply serial_inv_step; eauto.
Qed.

(** X3.  When every callback does its work in one atomic action (such as
    a slot that holds one lock for all of its body), an [asynch] emission
    serializes them: whatever the schedule, the environment left behind is
    that of calling, one after the other, each exactly once, in some
    order, the callbacks whose tasks [std::async] started (those whose
    future is ready when [emit] is left); the callbacks whose tasks it
    deferred have not acted.  When no task was deferred, this is an order
    of all the callbacks, which need not be the order of connection. *)
Theorem asynch_emit_serializes (s : @signal Args Env Exn asynch) sched a e m :
  Forall (λ f, one_action (f a)) (funcs s) →
  emit sched s a e = Some m →
  ∃ order,
    NoDup order ∧
    (∀ i, i ∈ order ↔ ∃ r, futures m !! i = Some (ready r)) ∧
    env m = foldl (λ e' i, effect (funcs s) a i e') e order ∧
    (forallb is_ready (futures m) = true →
     order ≡ₚ seq 0 (length (funcs s))).
Proof.
  intros Hone H.
  destruct (asynch_emit_joined _ _ _ _ _ H) as (_ & _ & Hlen & Hall).
  unfold emit in H. destruct (exec sched (enter s a e)) as [m1|] eqn:E; [|done].
  destruct (exited m1); [|done]. injection H as ->.
  assert (serial_inv s a e (enter s a e)) as H0.
  { exists []. split; [apply NoDup_nil_2|]. split; [done|].
    intros i. split; [by intros ?%elem_of_nil|by intros (st & ? & _)]. }
  destruct (serial_inv_exec s a e sched _ m Hone (asynch_inv_enter s a e) H0 E)
    as (order & Hnd & Henv & Hin).
  assert (∀ i, i ∈ order ↔ ∃ r, futures m !! i = Some (ready r)) as Hin'.
  { intros i. rewrite Hin. split.
    - intros (st & Hst & Hact). apply lookup_lt_Some in Hst as Hlt.
      destruct (lookup_lt_is_Some_2 (funcs s) i) as [f Hf]; [lia|].
      destruct (Hall i f Hf) as [(r & Hr & _)|(Hd & _)]; [by eauto|].
      rewrite Hst in Hd. injection Hd as ->. done.
    - intros [r Hr]. by exists (ready r). }
  exists order. split; [done|]. split; [done|]. split; [done|].
  intros Hready. apply NoDup_Permutation; [done|apply NoDup_seq|].
  intros i. rewrite Hin', elem_of_seq. split.
  - intros (r & Hst). apply lookup_lt_Some in Hst. lia.
  - intros [_ Hi].
    destruct (lookup_lt_is_Some_2 (futures m) i) as [st Hst]; [lia|].
    destruct (all_ready_lookup _ _ _ Hready Hst) as [r ->]. by exists r.
Qed.


(** ** One callback alone *)

Lemma single_step (s : @signal Args Env Exn asynch) f a e0 t m m' :
  funcs s = [f] → asynch_inv s a m →
  (futures m = [] → env m = e0) →
  (∀ st, futures m !! 0 = Some st → rest_of (f a) e0 st (env m)) →
  step t m = Some m' →
  (futures m' = [] → env m' = e0) ∧
  (∀ st, futures m' !! 0 = Some st → rest_of (f a) e0 st (env m')).
Proof.
  intros Hf Hinv Hnil Hrest Hstep.
  destruct m as [s0 a0 p fus e l].
  destruct Hinv as (Hs & Ha & Hpc & _ & _); simpl in *; subst s0 a0.
  apply step_cases in Hstep as [[how Hstep]|[j Hstep]].
  - unfold caller_step in Hstep; simpl in Hstep.
    destruct p as [fn|fn c|r]; [|done..]. destruct Hpc as [-> Hle].
    rewrite Hf in Hstep, Hle. simpl in Hle.
    destruct fus as [|st0 [|st1 fus]]; simpl in *; [| |lia].
    + injection Hstep as <-; simpl. split; [done|].
      intros st [= <-]. destruct how; simpl; by rewrite Hnil.
    + injection Hstep as <-; simpl. split; [done|]. exact Hrest.
  - unfold worker_step in Hstep; simpl in Hstep.
    destruct (fus !! j) as [st|] eqn:Hj; [|done].
    assert (j = 0) as ->.
    { apply lookup_lt_Some in Hj. rewrite Hf in Hpc. simpl in Hpc.
      destruct p as [fn|fn c|r]; [|done|]; lia. }
    specialize (Hrest st Hj).
    destruct fus as [|st0 fus]; [done|]. simpl in Hj. injection Hj as ->.
    destruct st as [c|[|x|act rest]|r|c]; try done;
      injection Hstep as <-; simpl in *; (split; [done|]);
      intros st' [= <-]; simpl; try done.
    + by rewrite <- Hrest.
    + by rewrite <- Hrest.
Qed.

(** X4.  An [asynch] emission on a signal with one callback has nothing
    to interleave.  Whatever the schedule, the emitter gets a normal
    return, and one of two things has happened.  Either [std::async]
    started the task: then the environment is the one that calling the
    callback leaves, which is the one the [synch] emission leaves, with the
    way the call ended stored in the one future (so the emitter gets a
    normal return also when the callback threw).  Or [std::async] deferred
    the task: then the callback was not invoked and the environment is as
    it was. *)
Theorem asynch_emit_single (s : @signal Args Env Exn asynch) f sched a e m :
  funcs s = [f] →
  emit sched s a e = Some m →
  result m = Some (Returned (env m)) ∧
  ((futures m = [ready (stored (run (f a) e))] ∧
    invocations 0 (log m) = [a] ∧
    env m = env_of (run (f a) e) ∧
    env m = env_of (emit_synch (Signal [f]) a e)) ∨
   (futures m = [deferred (f a)] ∧
    invocations 0 (log m) = [] ∧
    env m = e)).
Proof.
  intros Hf H.
  destruct (asynch_emit_joined _ _ _ _ _ H) as (_ & Hpc & Hlen & Hall).
  specialize (Hall 0 f). rewrite Hf in Hall. specialize (Hall eq_refl).
  unfold emit in H. destruct (exec sched (enter s a e)) as [m1|] eqn:E; [|done].
  destruct (exited m1); [|done]. injection H as ->.
  assert (asynch_inv s a m ∧ (futures m = [] → env m = e) ∧
          (∀ st, futures m !! 0 = Some st → rest_of (f a) e st (env m)))
    as (_ & _ & Hrest).
  { refine (exec_ind_r
      (λ m1, asynch_inv s a m1 ∧ (futures m1 = [] → env m1 = e) ∧
             (∀ st, futures m1 !! 0 = Some st →
                    rest_of (f a) e st (env m1)))
      (enter s a e) _ _ sched m E).
    - split; [apply asynch_inv_enter|]. by split.
    - intros t m1 m2 (H1 & H2 & H3) Hs. split.
      + by eapply asynch_inv_step.
      + eapply single_step; eauto. }
  split; [unfold result; by rewrite Hpc|].
  rewrite Hf in Hlen. simpl in Hlen.
  destruct Hall as [(r & Hr & _ & Hi & _)|(Hd & Hi & _)].
  - left. destruct (Hrest _ Hr) as [He ->]. split; [|split; [done|split]].
    + destruct (futures m) as [|st [|st' fus]]; simpl in *; try done.
      by injection Hr as ->.
    + done.
    + unfold emit_synch; simpl. rewrite He. by destruct (run (f a) e).
  - right. pose proof (Hrest _ Hd) as He. simpl in He.
    split; [|by split].
    destruct (futures m) as [|st [|st' fus]]; simpl in *; try done.
    by injection Hd as ->.
Qed.


(** ** An emission acts on the environment through the callbacks only *)

Lemma keeping_step {etype} (P : Env → Prop)
    (m m' : @activation Args Env Exn etype) t :
  Forall (λ f, keeps P (f (args m))) (funcs (this m)) →
  keeping P m → step t m = Some m' → keeping P m'.
Proof.
  intros Hall (HP & Hcall & Hfus) Hstep.
  destruct m as [s a p fus e l]; simpl in *.
  apply step_cases in Hstep as [[how Hstep]|[j Hstep]].
  - unfold caller_step in Hstep; simpl in Hstep.
    destruct p as [fn|fn [|x|act rest]|r]; [| | | |done].
    + destruct (funcs s !! fn) as [f|] eqn:Hf.
      * assert (keeps P (f a)) as Hk.
        { rewrite Forall_forall in Hall. apply Hall.
          by apply list_elem_of_lookup_2 in Hf. }
        destruct etype; injection Hstep as <-; (split; [done|]); simpl.
        -- split; [|done]. intros fn' c Hc. by simplify_eq.
        -- split; [intros ?? [=]|]. intros j c Hj.
           destruct Hj as [Hj|Hj];
             apply lookup_app_Some in Hj as [Hj|[_ Hj]];
             try (apply (Hfus j c); by auto);
             destruct (j - length fus) as [|k]; destruct how;
             simpl in Hj; try done.
           by simplify_eq.
      * injection Hstep as <-. split; [done|]. by split.
    + injection Hstep as <-. split; [done|]. by split.
    + injection Hstep as <-. split; [done|]. by split.
    + injection Hstep as <-. specialize (Hcall fn _ eq_refl).
      inversion Hcall as [| |act' rest' Hact Hrest]; subst.
      split; [by apply Hact|]. simpl. split; [|done].
      intros fn' c Hc. simplify_eq. apply Hrest.
  - unfold worker_step in Hstep; simpl in Hstep.
    destruct (fus !! j) as [st|] eqn:Hj; [|done].
    apply lookup_lt_Some in Hj as Hlt.
    assert (∀ st' e',
      P e' → (∀ c, st' = launched c ∨ st' = running c → keeps P c) →
      keeping P (Activation (etype:=etype) s a p (<[j:=st']> fus) e' l) ∧
      ∀ l', keeping P (Activation (etype:=etype) s a p (<[j:=st']> fus) e' l'))
      as Hset.
    { intros st' e' HP' Hst'.
      cut (∀ l', keeping P
             (Activation (etype:=etype) s a p (<[j:=st']> fus) e' l'));
        [by auto|].
      intros l'. split; [done|]. split; [done|]. simpl. intros i c Hi.
      destruct (decide (i = j)) as [->|Hne].
      - rewrite list_lookup_insert_eq in Hi by done. apply Hst'.
        destruct Hi as [[= <-]|[= <-]]; auto.
      - rewrite list_lookup_insert_ne in Hi by done. by apply (Hfus i). }
    destruct st as [c|[|x|act rest]|r|c]; try done; injection Hstep as <-.
    + apply Hset; [done|]. intros c' [[=]|[= <-]]. apply (Hfus j). auto.
    + apply Hset; [done|]. by intros c' [[=]|[=]].
    + apply Hset; [done|]. by intros c' [[=]|[=]].
    + assert (keeps P (Step act rest)) as Hk by (apply (Hfus j); auto).
      inversion Hk as [| |act' rest' Hact Hrest]; subst.
      apply Hset; [by apply Hact|]. intros c' [[=]|[= <-]]. apply Hrest.
Qed.

(** X11.  [emit] does nothing to the environment of its own: under
    either policy and whatever the schedule, a property of the environment
    that every action of every connected callback keeps, and that holds
    when [emit] is called, holds in every state of the emission, and so when
    it is left, whether by a return or by an exception. *)
Theorem emit_keeps {etype} (P : Env → Prop)
    (s : @signal Args Env Exn etype) sched a e m :
  P e →
  Forall (λ f, keeps P (f a)) (funcs s) →
  exec sched (enter s a e) = Some m →
  P (env m).
Proof.
  intros HP Hall H.
  cut ((this m = s ∧ args m = a) ∧ keeping P m); [by intros [_ [? _]]|].
  refine (exec_ind_r (λ m1, (this m1 = s ∧ args m1 = a) ∧ keeping P m1)
            (enter s a e) _ _ sched m H).
  - split; [done|]. split; [done|]. split; [done|].
    intros j c [Hj|Hj]; done.
  - intros t m1 m2 [[Hs Ha] Hk] Hstep. split.
    + apply step_frame in Hstep as [-> ->]. done.
    + eapply keeping_step; [|exact Hk|exact Hstep]. by rewrite Hs, Ha.
Qed.


End more_facts.

(** ** The demo: [class vm] *)

Section vm_facts.
Context {Env Exn : Type}.
Variable cout : string → Env → Env.
Implicit Types (v : @vm Env Exn) (e : Env) (s task : string).

Lemma snoc_case {A} (l : list A) : l = [] ∨ ∃ l' y, l = l' ++ [y].
Proof.
  induction l as [|y l IH] using rev_ind; [by left|right; by exists l, y].
Qed.

Lemma emit_synch_nothrow {Args} (sg : @signal Args Env Exn synch) a e :
  Forall (λ f, nothrow (f a)) (funcs sg) →
  emit_synch sg a e = Returned (env_of (emit_synch sg a e)).
Proof.
  intros H. unfold emit_synch. by rewrite (in_order_nothrow _ 0 a e [] H).
Qed.

Lemma emit_synch_connect {Args} (sg : @signal Args Env Exn synch) fn a e :
  emit_synch (connect fn sg) a e =
  match emit_synch sg a e with
  | Returned e1 => run (fn a) e1
  | Thrown x e1 => Thrown x e1
  end.
Proof.
  unfold emit_synch, connect; simpl. rewrite in_order_app.
  destruct (in_order 0 (funcs sg) a e []) as [[e1|x e1] l1]; simpl; [|done].
  by destruct (run (fn a) e1).
Qed.

Lemma turn_snoc i b k ts task sd sb e :
  turn (Vm i b k (ts ++ [task]) sd sb) e =
  (Vm (Env:=Env) (Exn:=Exn) i b k ts sd sb, emit_synch sd (solving i task) e).
Proof. unfold turn; simpl. by rewrite last_snoc, removelast_last. Qed.

(** The loop of [boot] works through the tasks from the last one pushed. *)
Lemma turns_nothrow n : ∀ i b k ts sd sb e,
  (∀ msg, Forall (λ f, nothrow (f msg)) (funcs sd)) →
  turns n (Vm i b k ts sd sb) e =
  (Vm (Env:=Env) (Exn:=Exn) i b k (take (length ts - n) ts) sd sb,
   Returned (foldl (λ e' msg, env_of (emit_synch sd msg e')) e
               (turn_data i n ts))).
Proof.
  induction n as [|n IH]; intros i b k ts sd sb e Hn.
  - unfold turn_data. simpl. by rewrite Nat.sub_0_r, take_ge.
  - destruct (snoc_case ts) as [->|(ts' & task & ->)].
    + simpl. unfold turn; simpl.
      rewrite (emit_synch_nothrow sd (page i) e (Hn _)).
      rewrite IH by done. unfold turn_data. simpl.
      by rewrite !reverse_nil, !take_nil, Nat.sub_0_r.
    + cbn [turns]. rewrite turn_snoc.
      rewrite (emit_synch_nothrow sd (solving i task) e (Hn _)).
      rewrite IH by done. unfold turn_data.
      rewrite length_app, reverse_snoc. cbn [length take map app foldl].
      replace (length ts' + 1 - S n) with (length ts' - n) by lia.
      rewrite take_app_le by lia.
      by replace (S n - (length ts' + 1)) with (n - length ts') by lia.
Qed.

Lemma turns_frame n : ∀ v e v' o,
  turns n v e = (v', o) →
  id v' = id v ∧ booted v' = booted v ∧ boot_count v' = boot_count v ∧
  signal_data v' = signal_data v ∧ signal_boot v' = signal_boot v.
Proof.
  induction n as [|n IH]; intros v e v' o H; simpl in H.
  - by injection H as <- _.
  - assert (id (turn v e).1 = id v ∧ booted (turn v e).1 = booted v ∧
            boot_count (turn v e).1 = boot_count v ∧
            signal_data (turn v e).1 = signal_data v ∧
            signal_boot (turn v e).1 = signal_boot v) as Ht.
    { unfold turn. by destruct (last (tasks v)). }
    destruct (turn v e) as [v1 [e1|x e1]]; simpl in Ht.
    + apply IH in H. destruct H as (-> & -> & -> & -> & ->). done.
    + by injection H as <- _.
Qed.

(** X5.  [data_in] followed by one turn of the loop of [boot] is a round
    trip on the vm: the task that [data_in] pushed is the one the turn takes
    off, the vm is as it was before, and the data the turn emits on
    [signal_data] names that task. *)
Theorem data_in_turn_round_trip s v e e1 :
  tasks (data_in s v e).1 = tasks v ++ [s] ∧
  turn (data_in s v e).1 e1 =
    (v, emit_synch (signal_data v) (solving (id v) s) e1).
Proof.
  destruct v as [i b k ts sd sb]. unfold data_in; simpl.
  split; [done|]. apply turn_snoc.
Qed.

(** X6.  The loop of [boot] works through the tasks last in, first out:
    with slots on [signal_data] that do not throw, [n] turns on a vm that
    holds the tasks [ts] emit, in this order, the data for the last [n]
    tasks from the newest to the oldest and then, if [n] is more than there
    are tasks, the page of the vm for each turn that is left; the vm keeps
    the tasks that were not reached, and nothing else of it changes. *)
Theorem turns_last_in_first_out n v e :
  (∀ msg, Forall (λ f, nothrow (f msg)) (funcs (signal_data v))) →
  turns n v e =
  (Vm (id v) (booted v) (boot_count v)
      (take (length (tasks v) - n) (tasks v))
      (signal_data v) (signal_boot v),
   Returned (foldl (λ e' msg, env_of (emit_synch (signal_data v) msg e')) e
               (turn_data (id v) n (tasks v)))).
Proof. destruct v as [i b k ts sd sb]. apply turns_nothrow. Qed.

(** X7.  A copy of a vm has the [id], [booted] and [boot_count] of the
    original and nothing else of it: no tasks, and no slot on either signal.
    So whatever was connected to the original, [data_in] on the copy, the
    turns of its loop and its [boot] leave the environment as it is. *)
Theorem vm_copy_disconnected v s e n :
  get_id (vm_copy v) = get_id v ∧
  data_in s (vm_copy v) e =
    (Vm (id v) (booted v) (boot_count v) [s] (Signal []) (Signal []),
     Returned e) ∧
  turns n (vm_copy v) e = (vm_copy v, Returned e) ∧
  (booted v = false →
   boot n (vm_copy v) e =
     Some (Vm (id v) true (boot_count v) [] (Signal []) (Signal []),
           Returned e)).
Proof.
  assert (∀ b, turns n (Vm (id v) b (boot_count v) [] (Signal []) (Signal [])) e
               = (Vm (Env:=Env) (Exn:=Exn) (id v) b (boot_count v) []
                    (Signal []) (Signal []), Returned e)) as Hturns.
  { intros b. revert e. induction n as [|n IH]; intros e; [done|].
    simpl. unfold turn; simpl. apply IH. }
  split; [done|]. split; [done|]. split; [apply Hturns|].
  intros Hb. unfold boot, vm_copy; simpl. rewrite Hb. simpl.
  by rewrite Hturns.
Qed.

(** X8.  [boot] asserts that the vm is not booted: it has no result
    exactly when [booted] is set.  When it has one, [id], [boot_count] and
    the two signals are as before, and [booted] is set exactly when the
    emission of [signal_boot] returned, in which case any further [boot]
    fails its assertion, until [kill] has cleared [booted]. *)
Theorem boot_asserts_not_booted n v e :
  (boot n v e = None ↔ booted v = true) ∧
  (∀ v' o, boot n v e = Some (v', o) →
     id v' = id v ∧ boot_count v' = boot_count v ∧
     signal_data v' = signal_data v ∧ signal_boot v' = signal_boot v ∧
     (booted v' = true ↔
      ∃ e1, emit_synch (signal_boot v) (id v) e = Returned e1) ∧
     (booted v' = true → ∀ n' e', boot n' v' e' = None) ∧
     (∀ n' e' e'', is_Some (boot n' (kill cout v' e').1 e''))).
Proof.
  split.
  - unfold boot. destruct (booted v); [done|].
    by destruct (emit_synch (signal_boot v) (id v) e).
  - intros v' o H.
    assert (∀ n' e' e'', is_Some (boot n' (kill cout v' e').1 e'')) as Hkill.
    { intros n' e' e''. unfold boot, kill; simpl.
      by destruct (emit_synch _ _ _). }
    assert (booted v' = true → ∀ n' e', boot n' v' e' = None) as Hagain.
    { intros Hb n' e'. unfold boot. by rewrite Hb. }
    unfold boot in H. destruct (booted v) eqn:Hb; [done|].
    destruct (emit_synch (signal_boot v) (id v) e) as [e1|x e1].
    + injection H as H. apply turns_frame in H; simpl in H.
      destruct H as (H1 & H2 & H3 & H4 & H5).
      repeat split; try done. by eauto.
    + injection H as <- <-. repeat split; try done.
      * intros Hb'. congruence.
      * by intros [e2 ?].
Qed.

(** X9.  A slot connected through [on_data_out] gets the data of every
    later [data_in] and of every later turn of the loop, after the slots
    that were connected before it have been called, on the environment they
    leave; it is not called when one of them throws. *)
Theorem on_data_out_receives fn s v e :
  (data_in s (on_data_out fn v) e).2 =
    match (data_in s v e).2 with
    | Returned e1 => run (fn (received (id v) s)) e1
    | Thrown x e1 => Thrown x e1
    end ∧
  (turn (on_data_out fn v) e).2 =
    match (turn v e).2 with
    | Returned e1 =>
        run (fn (from_option (solving (id v)) (page (id v))
                   (last (tasks v)))) e1
    | Thrown x e1 => Thrown x e1
    end.
Proof.
  split.
  - unfold data_in, on_data_out; simpl. apply emit_synch_connect.
  - unfold turn, on_data_out; simpl.
    destruct (last (tasks v)); simpl; apply emit_synch_connect.
Qed.


End vm_facts.

(** ** The demo: a vm wired to the server *)

Lemma server_cout_lines (msgs : list string) : ∀ w,
  foldl (λ w' msg,
           env_of (emit_synch (Exn:=string) (Signal [server.vm_data]) msg w'))
    w msgs =
  server.World (server.booted w)
    (server.console w ++ map (λ msg, "Data from VM: " +:+ msg) msgs).
Proof.
  induction msgs as [|msg msgs IH]; intros [b c]; simpl.
  - by rewrite app_nil_r.
  - rewrite IH. simpl. by rewrite <- app_assoc.
Qed.

(** An [int] within its range is stored as it is. *)
Lemma server_int_in_range (z : Z) :
  (-2147483648 ≤ z ≤ 2147483647)%Z → server.int z = z.
Proof.
  intros Hz. unfold server.int. rewrite Z.mod_small; lia.
Qed.

(** X10.  A vm with no slots that [run] has wired to the server
    ([vm_booted] on [signal_boot], [vm_data] through [on_data_out]), while
    the server's count, an [int], is below [INT_MAX]: its [boot], if it is
    not booted, adds one to the server's count and writes the line of
    [vm_booted] with the new count, then one line of [vm_data] for each
    turn of the loop, with the data for the tasks from the newest to the
    oldest and then the page; and [data_in] pushes the task and writes the
    line of [vm_data] that says it was received. *)
Theorem wired_vm_output tid (v : @vm server.world string) n s w :
  funcs (signal_data v) = [] → funcs (signal_boot v) = [] →
  booted v = false →
  (-2147483648 ≤ server.booted w < 2147483647)%Z →
  boot n (server.wire tid v) w =
    Some (Vm (id v) true (boot_count v)
            (take (length (tasks v) - n) (tasks v))
            (Signal [server.vm_data]) (Signal [server.vm_booted tid]),
          Returned
            (server.World (server.booted w + 1)%Z
               (server.console w ++
                [((((("Vm " +:+ pretty (id v)) +:+ " booted from thread  ")
                    +:+ tid) +:+ ". ") +:+ pretty (server.booted w + 1)%Z)
                 +:+ " vm's are up"] ++
                map (λ msg, "Data from VM: " +:+ msg)
                  (turn_data (id v) n (tasks v))))) ∧
  data_in s (server.wire tid v) w =
    (Vm (id v) false (boot_count v) (tasks v ++ [s])
       (Signal [server.vm_data]) (Signal [server.vm_booted tid]),
     Returned (server.cout ("Data from VM: " +:+ received (id v) s) w)).
Proof.
  destruct v as [i b k ts [sd] [sb]]; simpl. intros -> -> -> Hw. split.
  - unfold boot, server.wire, on_data_out, connect_boot, connect; simpl.
    rewrite turns_nothrow.
    + rewrite server_cout_lines. simpl.
      rewrite server_int_in_range by lia. by rewrite <- app_assoc.
    + intros msg. repeat constructor.
  - done.
Qed.

(** The extra properties with hypotheses, each on a run of the model. *)

Local Open Scope Z_scope.

Lemma synch_emit_after_connect_witness :
  ∃ m m',
    emit (synch_schedule (scenario synch) 7 []) (scenario synch) 7 []
      = Some m ∧
    emit (synch_schedule (connect_all [tagger "C"] (scenario synch)) 7 [])
      (connect_all [tagger "C"] (scenario synch)) 7 [] = Some m' ∧
    result m' = Some (Returned [("A", 7); ("B", 7); ("C", 7)]) ∧
    log m' = log m ++ [Invoke 2%nat 7; Complete 2%nat None].
Proof.
  exists_run (emit (synch_schedule (scenario synch) 7 []) (scenario synch) 7 []).
  exists_run
    (emit (synch_schedule (connect_all [tagger "C"] (scenario synch)) 7 [])
       (connect_all [tagger "C"] (scenario synch)) 7 []).
  match goal with |- ?P ∧ ?Q ∧ _ =>
    assert P as Hp by run_model; assert Q as Hq by run_model end.
  split; [exact Hp|]. split; [exact Hq|].
  exact (synch_emit_after_connect _ _ _ _ _ _ _ _ Hp Hq).
Defined.

Lemma asynch_emit_serializes_witness :
  (∃ m,
     emit second_first (scenario asynch) 7 [] = Some m ∧
     env m = [("B", 7); ("A", 7)] ∧
     ∃ order,
       order ≡ₚ [0; 1]%nat ∧
       env m =
         foldl (λ e' i, effect (funcs (scenario asynch)) 7 i e') [] order) ∧
  (∃ m,
     emit [caller_deferring; caller; caller; worker 1; worker 1; worker 1]
       (scenario asynch) 7 [] = Some m ∧
     env m = [("B", 7)] ∧
     ∃ order,
       NoDup order ∧ (0%nat ∉ order) ∧ (1%nat ∈ order) ∧
       env m =
         foldl (λ e' i, effect (funcs (scenario asynch)) 7 i e') [] order).
Proof.
  split.
  - exists_run (emit second_first (scenario asynch) 7 []).
    match goal with |- ?P ∧ _ => assert P as Hp by run_model end.
    split; [exact Hp|]. split; [reflexivity|].
    assert (Forall (λ f, one_action (f 7)) (funcs (scenario asynch)))
      as Hone by (repeat constructor).
    destruct (asynch_emit_serializes _ _ _ _ _ Hone Hp)
      as (order & _ & _ & Henv & Hperm).
    exists order. split; [apply Hperm; reflexivity|exact Henv].
  - exists_run
      (emit [caller_deferring; caller; caller; worker 1; worker 1; worker 1]
         (scenario asynch) 7 []).
    match goal with |- ?P ∧ _ => assert P as Hp by run_model end.
    split; [exact Hp|]. split; [reflexivity|].
    assert (Forall (λ f, one_action (f 7)) (funcs (scenario asynch)))
      as Hone by (repeat constructor).
    destruct (asynch_emit_serializes _ _ _ _ _ Hone Hp)
      as (order & Hnd & Hin & Henv & _).
    exists order. split; [exact Hnd|]. split; [|split; [|exact Henv]].
    + intros H0. apply Hin in H0 as [r Hr]. discriminate Hr.
    + apply Hin. exists None. reflexivity.
Defined.

Lemma asynch_emit_single_witness :
  (∃ m,
     emit [caller; worker 0; caller; worker 0; worker 0]
       (lone asynch) 7 [] = Some m ∧
     env m = [("A", 7)] ∧ futures m = [ready None] ∧
     result m = Some (Returned [("A", 7)])) ∧
  (∃ m,
     emit [caller_deferring; caller] (lone asynch) 7 [] = Some m ∧
     env m = [] ∧ invocations 0 (log m) = [] ∧
     result m = Some (Returned [])).
Proof.
  split.
  - exists_run
      (emit [caller; worker 0; caller; worker 0; worker 0] (lone asynch) 7 []).
    match goal with |- ?P ∧ _ => assert P as Hp by run_model end.
    split; [exact Hp|].
    destruct (asynch_emit_single (lone asynch) (tagger "A") _ 7 [] _
                eq_refl Hp) as (Hr & [(Hf & _ & He & _)|(Hf & _)]).
    + split; [exact He|]. split; [exact Hf|exact Hr].
    + discriminate Hf.
  - exists_run (emit [caller_deferring; caller] (lone asynch) 7 []).
    match goal with |- ?P ∧ _ => assert P as Hp by run_model end.
    split; [exact Hp|].
    destruct (asynch_emit_single (lone asynch) (tagger "A") _ 7 [] _
                eq_refl Hp) as (Hr & [(Hf & _)|(_ & Hi & He)]).
    + discriminate Hf.
    + split; [exact He|]. split; [exact Hi|exact Hr].
Defined.

Lemma turns_last_in_first_out_witness :
  turns 3 demo_vm (server.World 0 []) =
  (server.wire "t1" (Vm 3 false 0 [] (Signal []) (Signal [])),
   Returned (server.World 0
               ["Data from VM: VM 3 Solving task: maintenance";
                "Data from VM: VM 3 Solving task: backup";
                "Data from VM: <html>... VM 3...</html>"])).
Proof.
  rewrite (turns_last_in_first_out 3 demo_vm (server.World 0 [])).
  - reflexivity.
  - intros msg. repeat constructor.
Defined.

Lemma wired_vm_output_witness :
  boot 2 demo_vm (server.World 0 []) =
  Some (server.wire "t1" (Vm 3 true 0 [] (Signal []) (Signal [])),
        Returned (server.World 1
                    ["Vm 3 booted from thread  t1. 1 vm's are up";
                     "Data from VM: VM 3 Solving task: maintenance";
                     "Data from VM: VM 3 Solving task: backup"])).
Proof.
  assert (-2147483648 ≤ server.booted (server.World 0 []) < 2147483647)
    as Hw by (simpl; lia).
  destruct (wired_vm_output "t1"
              (Vm 3 false 0 ["backup"; "maintenance"] (Signal []) (Signal []))
              2 "x" (server.World 0 []) eq_refl eq_refl eq_refl Hw) as [H _].
  exact H.
Defined.

Lemma emit_keeps_witness :
  ∃ m,
    exec taking_turns (enter (writers asynch) 7 []) = Some m ∧
    Forall (λ p : string * Z, p.2 = 7) (env m).
Proof.
  exists_run (exec taking_turns (enter (writers asynch) 7 [])).
  match goal with |- ?P ∧ _ => assert P as Hp by run_model end.
  split; [exact Hp|].
  apply (emit_keeps (λ e, Forall (λ p : string * Z, p.2 = 7) e)
           (writers asynch) taking_turns 7 [] _); [done| |exact Hp].
  assert (∀ tag e, Forall (λ p : string * Z, p.2 = 7) e →
                   Forall (λ p : string * Z, p.2 = 7) (e ++ [(tag, 7)]))
    as Happ by (intros tag e He; apply Forall_app; split; [done|by constructor]).
  repeat constructor; auto.
Defined.
